(** * Signature key derivation: a shallow embedding of the TypeScript sources

    The repository holds two implementations of the pair
    [createInitialKeyFromSignature] / [deriveKeyFromInitialKeyAndTimelock]:

    - the options-taking library, the second document of
      [src/typescript/cli.ts] (lines 60-286), embedded in [Module Cli];
    - the two-argument version of [src/typescript/index.ts], embedded in
      [Module Index].

    JavaScript built-ins ([String.prototype.trim], [BigInt], [Buffer.from])
    and the [@scure/base] hex coder are embedded in [Module JS] and
    [Module Scure] from their documented behaviour.  [crypto.hkdfSync] is
    kept as an external call: a derivation is a program that either
    returns, throws, or invokes HKDF and continues with its answer. *)

From Stdlib Require Import ZArith List Ascii String Lia Bool.
From Stdlib.Strings Require Import Byte.
From stdpp Require Import base list.
Import ListNotations.
Local Open Scope Z_scope.

(** ** Bytes *)

Abbreviation byte := Byte.byte.

Definition Z_of_byte (b : byte) : Z := Z.of_N (Byte.to_N b).

(** A store into a [Uint8Array] keeps the low eight bits. *)
Definition byte_of_Z (z : Z) : byte :=
  match Byte.of_N (Z.to_N (z mod 256)) with
  | Some b => b
  | None => Byte.x00
  end.

(** [Buffer.from(s, "utf8")] on an ASCII literal. *)
Definition utf8 (s : string) : list byte := list_byte_of_string s.

(** ** Thrown errors

    The sources throw plain [Error] values; one constructor per message
    template.  The specification's error kinds are given on the right. *)

Inductive error : Type :=
| HexEmpty                                   (* "Hex string cannot be empty": EmptyInputError *)
| HexOddLength (len : nat)                   (* "Hex string must have even length, got ..": OddLengthError *)
| HexInvalid                                 (* "Invalid hex string: ..": InvalidHexError *)
| NotPositiveInt (name : string)             (* ".. must be a positive integer" *)
| TooShort (name : string) (min : Z) (got : nat)
                                             (* ".. must be at least .. bytes, got ..": SignatureTooShortError *)
| WrongLength (name : string) (len : Z) (got : nat)
                                             (* ".. must be exactly .. bytes, got ..": WrongKeyLengthError *)
| Negative (name : string)                   (* ".. cannot be negative": NegativeValueError *)
| DoesNotFit (name : string) (width : Z)     (* ".. does not fit in .. bytes": OverflowError *)
| NotNonNegativeInteger (name : string)      (* ".. must be a non-negative integer" *)
| EmptyId (name : string)                    (* ".. cannot be empty" *)
| EmptyHexId (name : string)                 (* ".. hex cannot be empty" *)
| NotNumeric (name : string)                 (* ".. must be numeric (decimal or 0x hex)": NonNumericError *)
| MustBeNonNegative (name : string)          (* ".. must be non-negative" *)
| TimelockNotInteger                         (* "timelock must be an integer": NonIntegerError *)
| TimelockExceedsSafe                        (* "timelock exceeds MAX_SAFE_INTEGER; ..": RangeExceededError *)
| TimelockExceedsUint64                      (* "timelock exceeds uint64 maximum": RangeExceededError *)
| SyntaxError                                (* thrown by BigInt(string) *)
| RangeError                                 (* thrown by BigInt(number) and by new Uint8Array(negative) *)
| CryptoError.                               (* thrown by crypto.hkdfSync *)

Inductive result (A : Type) : Type :=
| Ok (a : A)
| Err (e : error).
Arguments Ok {A} a.
Arguments Err {A} e.

Definition bind {A B : Type} (r : result A) (k : A -> result B) : result B :=
  match r with
  | Ok a => k a
  | Err e => Err e
  end.

Declare Scope result_scope.
Delimit Scope result_scope with result.
Notation "'let*' x ':=' r 'in' k" := (bind r (fun x => k))
  (at level 10, x name, r at level 100, k at level 200) : result_scope.
Notation "r ';;' k" := (bind r (fun _ => k))
  (at level 100, k at level 200, right associativity) : result_scope.

(** ** JavaScript built-ins *)

Module JS.

(** A string is a sequence of UTF-16 code units. *)
Definition jsstring : Type := list N.

Definition lit (s : string) : jsstring :=
  map N_of_ascii (list_ascii_of_string s).

(** A [number] that passes [Number.isInteger] carries its exact value; every
    other number (a fraction, [NaN], an infinity) fails both
    [Number.isInteger] and the combined [isFinite]/[isInteger] tests. *)
Inductive number : Type :=
| Integer (z : Z)
| NotInteger.

Definition MAX_SAFE_INTEGER : Z := 2 ^ 53 - 1.

(** WhiteSpace and LineTerminator code points, as removed by [trim]. *)
Definition is_white_space (c : N) : bool :=
  (existsb (N.eqb c)
     [9; 10; 11; 12; 13; 32; 160; 5760; 8232; 8233; 8239; 8287; 12288; 65279]
   || ((8192 <=? c) && (c <=? 8202)))%N.

Fixpoint trimStart (s : jsstring) : jsstring :=
  match s with
  | [] => []
  | c :: r => if is_white_space c then trimStart r else s
  end.

Definition trimEnd (s : jsstring) : jsstring := rev (trimStart (rev s)).

Definition trim (s : jsstring) : jsstring := trimEnd (trimStart s).

Fixpoint startsWith (s p : jsstring) {struct p} : bool :=
  match p, s with
  | [], _ => true
  | _ :: _, [] => false
  | a :: p', c :: s' => (c =? a)%N && startsWith s' p'
  end.

(** [s.slice(n)] for a literal [0 <= n]. *)
Definition slice (s : jsstring) (n : nat) : jsstring := drop n s.

(** The regular expression [/^\d+$/] (no flags: [\d] is [0-9]). *)
Definition is_decimal_digit (c : N) : bool := ((48 <=? c) && (c <=? 57))%N.

Definition test_decimal (s : jsstring) : bool :=
  match s with
  | [] => false
  | _ => forallb is_decimal_digit s
  end.

(** Value of a digit in a radix up to 36: [0-9], [a-z], [A-Z]. *)
Definition digit_value (radix : Z) (c : N) : option Z :=
  let v :=
    if ((48 <=? c) && (c <=? 57))%N then Some (Z.of_N c - 48)
    else if ((97 <=? c) && (c <=? 122))%N then Some (Z.of_N c - 87)
    else if ((65 <=? c) && (c <=? 90))%N then Some (Z.of_N c - 55)
    else None in
  match v with
  | Some d => if d <? radix then Some d else None
  | None => None
  end.

Fixpoint digits_from (radix acc : Z) (s : jsstring) : option Z :=
  match s with
  | [] => Some acc
  | c :: r =>
      match digit_value radix c with
      | Some d => digits_from radix (acc * radix + d) r
      | None => None
      end
  end.

Definition parse_digits (radix : Z) (s : jsstring) : option Z :=
  match s with
  | [] => None
  | _ => digits_from radix 0 s
  end.

(** [BigInt(s)] on a string (StringToBigInt): surrounding white space is
    dropped, the empty string is [0n], a radix prefix takes unsigned digits,
    a decimal literal may carry a sign.  [None] is a thrown [SyntaxError]. *)
Definition StringToBigInt (s : jsstring) : option Z :=
  let t := trim s in
  match t with
  | [] => Some 0
  | _ =>
      if startsWith t (lit "0x") || startsWith t (lit "0X") then parse_digits 16 (slice t 2)
      else if startsWith t (lit "0o") || startsWith t (lit "0O") then parse_digits 8 (slice t 2)
      else if startsWith t (lit "0b") || startsWith t (lit "0B") then parse_digits 2 (slice t 2)
      else if startsWith t (lit "+") then parse_digits 10 (slice t 1)
      else if startsWith t (lit "-") then option_map Z.opp (parse_digits 10 (slice t 1))
      else parse_digits 10 t
  end.

Definition BigInt_of_string (s : jsstring) : result Z :=
  match StringToBigInt s with
  | Some v => Ok v
  | None => Err SyntaxError
  end.

Definition BigInt_of_number (n : number) : result Z :=
  match n with
  | Integer z => Ok z
  | NotInteger => Err RangeError
  end.

(** [v.toString(16)] on a bigint. *)
Definition hex_letter (d : Z) : N :=
  nth (Z.to_nat d) (lit "0123456789abcdef") 0%N.

Fixpoint hex_digits_fuel (fuel : nat) (v : Z) (acc : jsstring) : jsstring :=
  match fuel with
  | O => acc
  | S f =>
      let acc' := hex_letter (v mod 16) :: acc in
      if v / 16 =? 0 then acc' else hex_digits_fuel f (v / 16) acc'
  end.

Definition BigInt_toString16 (v : Z) : jsstring :=
  let mag := Z.abs v in
  let ds := hex_digits_fuel (S (Z.to_nat (Z.log2 mag))) mag [] in
  if v <? 0 then lit "-" ++ ds else ds.

(** [Buffer.from(s, "hex")]: whole pairs of hex digits are decoded until the
    first pair that is not hexadecimal; nothing is thrown. *)
Fixpoint Buffer_from_hex (s : jsstring) : list byte :=
  match s with
  | a :: b :: r =>
      match digit_value 16 a, digit_value 16 b with
      | Some hi, Some lo => byte_of_Z (16 * hi + lo) :: Buffer_from_hex r
      | _, _ => []
      end
  | _ => []
  end.

(** [toString] on an [ArrayBuffer] is [Object.prototype.toString]: whatever
    the arguments and the contents, the text is the class tag. *)
Definition ArrayBuffer_toString (_ : list byte) : jsstring :=
  lit "[object ArrayBuffer]".

End JS.

Import JS.

(** ** The [hex] coder of [@scure/base] *)

Module Scure.

Definition alphabet : jsstring := lit "0123456789abcdef".

Fixpoint index_of (c : N) (l : jsstring) (i : Z) : option Z :=
  match l with
  | [] => None
  | a :: r => if (c =? a)%N then Some i else index_of c r (i + 1)
  end.

(** [toLowerCase] on one code unit.  Outside [A-Z] the lower-case form of a
    character is never one of the sixteen alphabet letters, so leaving such
    a unit as it is does not change which strings decode. *)
Definition toLowerCase1 (c : N) : N :=
  if ((65 <=? c) && (c <=? 90))%N then (c + 32)%N else c.

Definition letter_value (c : N) : option Z :=
  index_of (toLowerCase1 c) alphabet 0.

Fixpoint letters_values (s : jsstring) : option (list Z) :=
  match s with
  | [] => Some []
  | c :: r =>
      match letter_value c, letters_values r with
      | Some d, Some ds => Some (d :: ds)
      | _, _ => None
      end
  end.

(** Regrouping 4-bit digits into 8-bit bytes. *)
Fixpoint radix2_4_to_8 (ds : list Z) : list byte :=
  match ds with
  | hi :: lo :: r => byte_of_Z (16 * hi + lo) :: radix2_4_to_8 r
  | _ => []
  end.

(** [hex.decode]: [None] is a thrown error (odd length or unknown letter). *)
Definition decode (s : jsstring) : option (list byte) :=
  if negb (length s mod 2 =? 0)%nat then None
  else option_map radix2_4_to_8 (letters_values s).

Definition encode_byte (b : byte) : jsstring :=
  [hex_letter (Z_of_byte b / 16); hex_letter (Z_of_byte b mod 16)].

(** [hex.encode]: two lower-case letters per byte. *)
Definition encode (bs : list byte) : jsstring := flat_map encode_byte bs.

End Scure.

(** ** Programs that may call HKDF *)

(** [crypto.hkdfSync("sha256", ikm, salt, info, keylen)]. *)
Record hkdf_call : Type := Hkdf {
  hkdf_ikm : list byte;
  hkdf_salt : list byte;
  hkdf_info : list byte;
  hkdf_keylen : Z
}.

Inductive prog (A : Type) : Type :=
| Return (a : A)
| Throw (e : error)
| Invoke (c : hkdf_call) (k : list byte -> prog A).
Arguments Return {A} a.
Arguments Throw {A} e.
Arguments Invoke {A} c k.

(** Sequencing a pure step before the rest of a program. *)
Definition pbind {A B : Type} (r : result A) (k : A -> prog B) : prog B :=
  match r with
  | Ok a => k a
  | Err e => Throw e
  end.

Declare Scope prog_scope.
Delimit Scope prog_scope with prog.
Notation "'let*' x ':=' r 'in' k" := (pbind r (fun x => k))
  (at level 10, x name, r at level 100, k at level 200) : prog_scope.
Notation "r ';;' k" := (pbind r (fun _ => k))
  (at level 100, k at level 200, right associativity) : prog_scope.

(** Running a program against an HKDF implementation; [None] from the
    implementation is a thrown error. *)
Fixpoint run {A : Type} (hkdf : hkdf_call -> option (list byte)) (p : prog A) : result A :=
  match p with
  | Return a => Ok a
  | Throw e => Err e
  | Invoke c k =>
      match hkdf c with
      | Some out => run hkdf (k out)
      | None => Err CryptoError
      end
  end.

(** The HKDF invocation a program makes first, if it makes one. *)
Definition first_call {A : Type} (p : prog A) : option hkdf_call :=
  match p with
  | Invoke c _ => Some c
  | _ => None
  end.

(** ** Arguments accepted by the entry points *)

(** [BinaryLike | string]: a string, or binary data seen as its bytes. *)
Inductive bytes_input : Type :=
| Str (s : jsstring)
| Bin (b : list byte).

(** [string | number | bigint]. *)
Inductive numeric_input : Type :=
| IdStr (s : jsstring)
| IdNum (n : number)
| IdBig (v : Z).

(** ** The library of [src/typescript/cli.ts] (lines 60-286) *)

Module Cli.

(** Domain separation labels for HKDF. *)
Definition INFO_INITIAL : list byte := utf8 "signature-key-initial".
Definition INFO_TIMELOCK : list byte := utf8 "signature-key-timelock".

(** Key derivation parameters. *)
Definition KEY_LENGTH : number := Integer 32.
Definition CHAIN_ID_BYTES : number := Integer 32.
Definition TIMELOCK_BYTES : number := Integer 8.
Definition MIN_SIGNATURE_BYTES : Z := 32.

Record DerivationOptions : Type := {
  outputLength : option number;
  infoInitialLabel : option (list byte);
  infoTimelockLabel : option (list byte);
  chainIdWidth : option number;
  timelockWidth : option number
}.

(** [opts = {}]. *)
Definition no_options : DerivationOptions :=
  {| outputLength := None; infoInitialLabel := None; infoTimelockLabel := None;
     chainIdWidth := None; timelockWidth := None |}.

(** [a ?? b]. *)
Definition nullish {A : Type} (a : option A) (b : A) : A :=
  match a with
  | Some x => x
  | None => b
  end.

Definition strip0x (s : jsstring) : jsstring :=
  let t := trim s in
  if startsWith t (lit "0x") || startsWith t (lit "0X") then slice t 2 else t.

Definition hexToBytesStrict (input : jsstring) : result (list byte) :=
  let clean := strip0x input in
  if (length clean =? 0)%nat then Err HexEmpty
  else if negb (length clean mod 2 =? 0)%nat then Err (HexOddLength (length clean))
  else match Scure.decode clean with
       | Some bytes => Ok bytes
       | None => Err HexInvalid
       end.

(** Binary input of any shape (ArrayBuffer, view, Buffer) is its bytes. *)
Definition toBytes (input : bytes_input) : result (list byte) :=
  match input with
  | Str s => hexToBytesStrict s
  | Bin b => Ok b
  end.

Definition bytesToHex0x (bytes : list byte) : jsstring :=
  lit "0x" ++ Scure.encode bytes.

(** Returns the checked value as an integer for the code that follows. *)
Definition assertPositiveInt (n : number) (name : string) : result Z :=
  match n with
  | Integer z => if z <=? 0 then Err (NotPositiveInt name) else Ok z
  | NotInteger => Err (NotPositiveInt name)
  end.

Definition assertMinLength (bytes : list byte) (min : Z) (name : string) : result unit :=
  if Z.of_nat (length bytes) <? min then Err (TooShort name min (length bytes))
  else Ok tt.

Definition assertExactLength (bytes : list byte) (len : Z) (name : string) : result unit :=
  if negb (Z.of_nat (length bytes) =? len) then Err (WrongLength name len (length bytes))
  else Ok tt.

(** The loop of [uintToFixedBE]: [n] iterations remain, the next one writes
    index [n - 1]. *)
Fixpoint fill_be (n : nat) (out : list byte) (v : Z) : list byte * Z :=
  match n with
  | O => (out, v)
  | S i => fill_be i (<[i := byte_of_Z (Z.land v 255)]> out) (Z.shiftr v 8)
  end.

(** [width] is integer valued; the callers check it with
    [assertPositiveInt] first. *)
Definition uintToFixedBE (value : Z) (width : Z) (name : string) : result (list byte) :=
  if value <? 0 then Err (Negative name)
  else if width <? 0 then Err RangeError
  else
    let out := replicate (Z.to_nat width) Byte.x00 in
    let '(out, v) := fill_be (Z.to_nat width) out value in
    if negb (v =? 0) then Err (DoesNotFit name width)
    else Ok out.

Definition parseNumericId (id : numeric_input) (name : string) : result Z :=
  match id with
  | IdBig v => Ok v
  | IdNum n =>
      match n with
      | NotInteger => Err (NotNonNegativeInteger name)
      | Integer z => if z <? 0 then Err (NotNonNegativeInteger name) else Ok z
      end
  | IdStr id =>
      let s := trim id in
      if (length s =? 0)%nat then Err (EmptyId name)
      else if startsWith s (lit "0x") || startsWith s (lit "0X") then
        let hexPart := slice s 2 in
        if (length hexPart =? 0)%nat then Err (EmptyHexId name)
        else (let* v := BigInt_of_string s in
              if v <? 0 then Err (MustBeNonNegative name) else Ok v)%result
      else if negb (test_decimal s) then Err (NotNumeric name)
      else (let* v := BigInt_of_string s in
            if v <? 0 then Err (MustBeNonNegative name) else Ok v)%result
  end.

Definition encodeChainId (chainId : numeric_input) (width : option number) : result (list byte) :=
  (let* w := assertPositiveInt (nullish width CHAIN_ID_BYTES) "chainIdWidth" in
   let* v := parseNumericId chainId "chainId" in
   uintToFixedBE v w "chainId")%result.

Definition encodeTimelock (timelock : numeric_input) (width : option number) : result (list byte) :=
  (let* w := assertPositiveInt (nullish width TIMELOCK_BYTES) "timelockWidth" in
   let* v :=
     match timelock with
     | IdBig v => Ok v
     | IdNum n =>
         match n with
         | NotInteger => Err TimelockNotInteger
         | Integer z =>
             if z <? 0 then Err (Negative "timelock")
             else if z >? MAX_SAFE_INTEGER then Err TimelockExceedsSafe
             else Ok z
         end
     | IdStr s => parseNumericId (IdStr s) "timelock"
     end in
   (if w =? 8 then
      let max := Z.shiftl 1 64 - 1 in
      if v >? max then Err TimelockExceedsUint64 else Ok tt
    else Ok tt) ;;
   uintToFixedBE v w "timelock")%result.

Definition createInitialKeyFromSignature
    (signature : bytes_input) (chainId : numeric_input) (opts : DerivationOptions)
    : prog jsstring :=
  (let* sigBytes := toBytes signature in
   assertMinLength sigBytes MIN_SIGNATURE_BYTES "signature" ;;
   let keyLength := nullish (outputLength opts) KEY_LENGTH in
   let infoInitial := nullish (infoInitialLabel opts) INFO_INITIAL in
   let chainIdWidth := nullish (chainIdWidth opts) CHAIN_ID_BYTES in
   let* keyLen := assertPositiveInt keyLength "outputLength" in
   assertPositiveInt chainIdWidth "chainIdWidth" ;;
   let* chainIdBytes := encodeChainId chainId (Some chainIdWidth) in
   Invoke (Hkdf sigBytes chainIdBytes infoInitial keyLen) (fun out =>
     assertExactLength out keyLen "HKDF output" ;;
     Return (bytesToHex0x out)))%prog.

Definition deriveKeyFromInitialKeyAndTimelock
    (initialKey : bytes_input) (timelock : numeric_input) (opts : DerivationOptions)
    : prog jsstring :=
  (let* keyBytes := toBytes initialKey in
   let keyLength := nullish (outputLength opts) KEY_LENGTH in
   let infoTimelock := nullish (infoTimelockLabel opts) INFO_TIMELOCK in
   let timelockWidth := nullish (timelockWidth opts) TIMELOCK_BYTES in
   let* keyLen := assertPositiveInt keyLength "outputLength" in
   assertPositiveInt timelockWidth "timelockWidth" ;;
   assertExactLength keyBytes keyLen "initialKey" ;;
   let* timelockBytes := encodeTimelock timelock (Some timelockWidth) in
   Invoke (Hkdf keyBytes timelockBytes infoTimelock keyLen) (fun out =>
     assertExactLength out keyLen "HKDF output" ;;
     Return (bytesToHex0x out)))%prog.

End Cli.

(** ** The two-argument version of [src/typescript/index.ts] *)

Module Index.

Definition INFO : list byte := utf8 "generic-signature-key-derivation".
Definition KEY_LENGTH : Z := 32.

Definition normalizeHex (hex : jsstring) : jsstring :=
  if startsWith hex (lit "0x") then slice hex 2 else hex.

Definition toBuffer (input : bytes_input) : list byte :=
  match input with
  | Bin b => b
  | Str s => Buffer_from_hex (normalizeHex s)
  end.

(** [crypto.hkdfSync] returns an [ArrayBuffer] (the library of [cli.ts]
    wraps it in [new Uint8Array(..)] before encoding it).  An [ArrayBuffer]
    has no [toString] of its own, so [(keyBuf as any).toString("hex")] is
    [Object.prototype.toString]: the argument is ignored and the text is
    ["[object ArrayBuffer]"]. *)
Definition createInitialKeyFromSignature (signature chainId : bytes_input) : prog jsstring :=
  let sigBuf := toBuffer signature in
  let chainIdBuf := toBuffer chainId in
  Invoke (Hkdf sigBuf chainIdBuf INFO KEY_LENGTH) (fun keyBuf =>
    Return (lit "0x" ++ ArrayBuffer_toString keyBuf)).

Definition deriveKeyFromInitialKeyAndTimelock
    (initialKey : bytes_input) (timelock : numeric_input) : prog jsstring :=
  let keyBuf := toBuffer initialKey in
  (let* timeBig :=
     match timelock with
     | IdBig v => Ok v
     | IdNum n => BigInt_of_number n
     | IdStr s =>
         if startsWith s (lit "0x") then BigInt_of_string s else BigInt_of_string s
     end in
   let timeHex := BigInt_toString16 timeBig in
   let timeBuf :=
     Buffer_from_hex (if (length timeHex mod 2 =? 0)%nat then timeHex
                      else lit "0" ++ timeHex) in
   Invoke (Hkdf keyBuf timeBuf INFO KEY_LENGTH) (fun derivedBuf =>
     Return (lit "0x" ++ ArrayBuffer_toString derivedBuf)))%prog.

End Index.

(** ** The interactive shell of [src/typescript/cli.ts] (lines 4-59)

    The shell is run on the lines typed at the terminal, one per question.
    It is taken over the two derivation functions it imports, as they are
    seen by a caller: a string returned or an error thrown. *)

Module Shell.

(** The four prompts of [askQuestion]. *)
Inductive question : Type :=
| AskSignature                    (* "Enter signature (hex, e.g. 0x1234...): " *)
| AskChainId                      (* "Enter numeric chain ID (..): " *)
| AskChoice                       (* "Choose an option (1/2): " *)
| AskTimelock.                    (* "Enter timelock (Unix timestamp, decimal or 0x hex): " *)

(** What is written to the terminal, one constructor per site. *)
Inductive output : Type :=
| Banner                          (* the title and notes, lines 15-19 *)
| Asked (q : question)            (* the prompt of a question *)
| InitialKey (key : jsstring)     (* "Initial key:" and the key *)
| Menu                            (* "Options:" and its two lines *)
| Done                            (* "Done." *)
| DerivedKey (key : jsstring)     (* "Derived key:" and the key *)
| DeriveError (e : error)         (* "Error deriving key:" and the message *)
| InvalidChoice                   (* "Invalid choice. Please enter 1 or 2." *)
| Error (e : error).              (* "Error:" and the message *)

(** How a run ends: [main] returns, [process.exit(code)] is called, or a
    question is left without an answer. *)
Inductive ending : Type :=
| Finished
| Exit (code : Z)
| AwaitingInput.

(** The [while (true)] loop of [main].  Every answer is the next line,
    trimmed by [askQuestion]. *)
Fixpoint loop (derive : jsstring -> jsstring -> result jsstring)
    (initialKey : jsstring) (inputs : list jsstring) : list output * ending :=
  match inputs with
  | [] => ([Menu; Asked AskChoice], AwaitingInput)
  | answer :: rest =>
      let choice := trim answer in
      if bool_decide (choice = lit "2") then
        ([Menu; Asked AskChoice; Done], Finished)
      else if bool_decide (choice = lit "1") then
        match rest with
        | [] => ([Menu; Asked AskChoice; Asked AskTimelock], AwaitingInput)
        | answer' :: rest' =>
            let tInput := trim answer' in
            let shown :=
              match derive initialKey tInput with
              | Ok derivedKey => DerivedKey derivedKey
              | Err err => DeriveError err
              end in
            let '(outs, e) := loop derive initialKey rest' in
            (Menu :: Asked AskChoice :: Asked AskTimelock :: shown :: outs, e)
        end
      else
        let '(outs, e) := loop derive initialKey rest in
        (Menu :: Asked AskChoice :: InvalidChoice :: outs, e)
  end.

Definition main (create derive : jsstring -> jsstring -> result jsstring)
    (inputs : list jsstring) : list output * ending :=
  match inputs with
  | [] => ([Banner; Asked AskSignature], AwaitingInput)
  | answer :: rest =>
      let signatureHex := trim answer in
      match rest with
      | [] => ([Banner; Asked AskSignature; Asked AskChainId], AwaitingInput)
      | answer' :: rest' =>
          let chainIdInput := trim answer' in
          match create signatureHex chainIdInput with
          | Ok initialKey =>
              let '(outs, e) := loop derive initialKey rest' in
              (Banner :: Asked AskSignature :: Asked AskChainId
                 :: InitialKey initialKey :: outs, e)
          | Err err =>
              ([Banner; Asked AskSignature; Asked AskChainId; Error err], Exit 1)
          end
      end
  end.

(** The two functions of the library of [cli.ts], called as the shell calls
    them: with strings and without options, over an HKDF implementation. *)
Definition create_with (hkdf : hkdf_call -> option (list byte))
    (signature chainId : jsstring) : result jsstring :=
  run hkdf (Cli.createInitialKeyFromSignature (Str signature) (IdStr chainId)
              Cli.no_options).

Definition derive_with (hkdf : hkdf_call -> option (list byte))
    (initialKey timelock : jsstring) : result jsstring :=
  run hkdf (Cli.deriveKeyFromInitialKeyAndTimelock (Str initialKey) (IdStr timelock)
              Cli.no_options).

End Shell.

(** ** Specification-level notions used by the statements *)

(** Big-endian value of a byte sequence. *)
Definition be_value (bs : list byte) : Z :=
  fold_left (fun acc b => acc * 256 + Z_of_byte b) bs 0.

(** The [n] low-order bytes of [v], most significant first. *)
Fixpoint be_bytes (n : nat) (v : Z) : list byte :=
  match n with
  | O => []
  | S i => be_bytes i (v / 256) ++ [byte_of_Z v]
  end.

(** The value a timelock argument stands for, when it is a bigint or a
    string that [parseNumericId] accepts. *)
Definition timelock_denotes (t : numeric_input) (v : Z) : Prop :=
  t = IdBig v \/ exists s, t = IdStr s /\ Cli.parseNumericId (IdStr s) "timelock" = Ok v.

(** The characters [0-9a-fA-F]. *)
Definition is_hex_digit (c : N) : bool :=
  ((48 <=? c) && (c <=? 57) || (97 <=? c) && (c <=? 102)
   || (65 <=? c) && (c <=? 70))%N.

(** The characters [0-9a-f]. *)
Definition is_lower_hex_digit (c : N) : bool :=
  ((48 <=? c) && (c <=? 57) || (97 <=? c) && (c <=? 102))%N.

(** Positional notation: the integer that a non-empty string of digits
    denotes in a radix, read from the least significant end. *)
Inductive numeral (radix : Z) : jsstring -> Z -> Prop :=
| numeral_one (c : N) (d : Z) :
    digit_value radix c = Some d -> numeral radix [c] d
| numeral_snoc (s : jsstring) (n : Z) (c : N) (d : Z) :
    numeral radix s n -> digit_value radix c = Some d ->
    numeral radix (s ++ [c]) (n * radix + d).

(** A pure-decimal text for [n], such as ["255"]. *)
Definition decimal_text (s : jsstring) (n : Z) : Prop := numeral 10 s n.

(** A [0x]-prefixed hex text for [n], such as ["0xff"]. *)
Definition hex_text (s : jsstring) (n : Z) : Prop :=
  exists ds, (s = lit "0x" ++ ds \/ s = lit "0X" ++ ds) /\ numeral 16 ds n.

(** The signature of the test suite: ["0x"] and thirty-two times ["aa"]. *)
Definition sig_aa : bytes_input := Str (lit "0x" ++ concat (replicate 32 (lit "aa"))).

(** * Bytes *)

Lemma Z_of_byte_range (b : byte) : 0 <= Z_of_byte b < 256.
Proof.
  unfold Z_of_byte. pose proof (Byte.to_N_bounded b). lia.
Qed.

Lemma Z_of_byte_of_Z (z : Z) : Z_of_byte (byte_of_Z z) = z mod 256.
Proof.
  unfold Z_of_byte, byte_of_Z.
  pose proof (Z.mod_pos_bound z 256 ltac:(lia)) as Hr.
  destruct (Byte.of_N (Z.to_N (z mod 256))) as [b|] eqn:E.
  - apply Byte.to_of_N in E. rewrite E. lia.
  - apply Byte.of_N_None_iff in E. lia.
Qed.

Lemma byte_of_Z_of_byte (b : byte) : byte_of_Z (Z_of_byte b) = b.
Proof.
  unfold byte_of_Z, Z_of_byte.
  pose proof (Byte.to_N_bounded b).
  rewrite Z.mod_small by lia.
  rewrite N2Z.id, Byte.of_to_N. reflexivity.
Qed.

Lemma byte_of_Z_mod (z : Z) : byte_of_Z (z mod 256) = byte_of_Z z.
Proof.
  unfold byte_of_Z. rewrite Z.mod_mod by lia. reflexivity.
Qed.

Lemma byte_of_Z_inj (a b : Z) :
  0 <= a < 256 -> 0 <= b < 256 -> byte_of_Z a = byte_of_Z b -> a = b.
Proof.
  intros Ha Hb E. apply (f_equal Z_of_byte) in E.
  rewrite !Z_of_byte_of_Z, !Z.mod_small in E by lia. exact E.
Qed.

Lemma byte_of_Z_land (v : Z) : byte_of_Z (Z.land v 255) = byte_of_Z v.
Proof.
  change 255 with (Z.ones 8). rewrite Z.land_ones by lia.
  change (2 ^ 8) with 256. apply byte_of_Z_mod.
Qed.

(** * Fixed-width big-endian encoding *)

Lemma length_be_bytes (n : nat) (v : Z) : length (be_bytes n v) = n.
Proof.
  revert v. induction n as [|n IH]; intros v; simpl; [reflexivity|].
  rewrite length_app, IH. simpl. lia.
Qed.

Lemma be_value_snoc (bs : list byte) (b : byte) :
  be_value (bs ++ [b]) = be_value bs * 256 + Z_of_byte b.
Proof.
  unfold be_value. rewrite fold_left_app. reflexivity.
Qed.

Lemma be_value_be_bytes (n : nat) (v : Z) :
  0 <= v -> be_value (be_bytes n v) = v mod 256 ^ Z.of_nat n.
Proof.
  revert v. induction n as [|n IH]; intros v Hv.
  - simpl. rewrite Z.mod_1_r. reflexivity.
  - cbn [be_bytes]. rewrite be_value_snoc, IH, Z_of_byte_of_Z
      by (apply Z.div_pos; lia).
    rewrite Nat2Z.inj_succ, Z.pow_succ_r by lia.
    assert (0 < 256 ^ Z.of_nat n) by (apply Z.pow_pos_nonneg; lia).
    rewrite Z.rem_mul_r by lia. lia.
Qed.

Lemma be_bytes_lookup (n : nat) (v : Z) (i : nat) :
  (i < n)%nat ->
  be_bytes n v !! i = Some (byte_of_Z (v / 256 ^ Z.of_nat (n - 1 - i))).
Proof.
  revert v i. induction n as [|n IH]; intros v i Hi; [lia|].
  cbn [be_bytes]. destruct (decide (i = n)) as [->|Hne].
  - rewrite lookup_app_r by (rewrite length_be_bytes; lia).
    rewrite length_be_bytes, Nat.sub_diag.
    replace (S n - 1 - n)%nat with 0%nat by lia.
    simpl. rewrite Z.div_1_r. reflexivity.
  - rewrite lookup_app_l by (rewrite length_be_bytes; lia).
    rewrite IH by lia. f_equal. f_equal.
    rewrite Z.div_div by lia.
    replace (S n - 1 - i)%nat with (S (n - 1 - i)) by lia.
    rewrite Nat2Z.inj_succ, Z.pow_succ_r by lia. reflexivity.
Qed.

Lemma fill_be_spec (n : nat) (out : list byte) (v : Z) :
  (n <= length out)%nat ->
  Cli.fill_be n out v = (be_bytes n v ++ drop n out, v / 256 ^ Z.of_nat n).
Proof.
  revert out v. induction n as [|n IH]; intros out v Hn.
  - simpl. rewrite Z.div_1_r. reflexivity.
  - cbn [Cli.fill_be be_bytes]. rewrite IH by (rewrite length_insert; lia).
    rewrite Z.shiftr_div_pow2 by lia. change (2 ^ 8) with 256.
    rewrite byte_of_Z_land. f_equal.
    + rewrite <- app_assoc. f_equal.
      rewrite insert_take_drop by lia.
      rewrite drop_app_length' by (rewrite length_take; lia).
      reflexivity.
    + rewrite Z.div_div by lia.
      rewrite Nat2Z.inj_succ, Z.pow_succ_r by lia. reflexivity.
Qed.

Lemma uintToFixedBE_eq (v w : Z) (name : string) :
  0 <= v -> 0 <= w ->
  Cli.uintToFixedBE v w name =
    if v / 256 ^ w =? 0 then Ok (be_bytes (Z.to_nat w) v)
    else Err (DoesNotFit name w).
Proof.
  intros Hv Hw. unfold Cli.uintToFixedBE.
  destruct (Z.ltb_spec v 0); [lia|]. destruct (Z.ltb_spec w 0); [lia|].
  rewrite fill_be_spec by (rewrite length_replicate; lia).
  rewrite Z2Nat.id by lia.
  rewrite drop_ge by (rewrite length_replicate; lia).
  rewrite app_nil_r. destruct (_ =? 0); reflexivity.
Qed.

Lemma pow256 (w : Z) : 0 <= w -> 256 ^ w = 2 ^ (8 * w).
Proof.
  intros Hw. change 256 with (2 ^ 8). rewrite <- Z.pow_mul_r by lia. reflexivity.
Qed.

Lemma fits_iff (v w : Z) :
  0 <= v -> 0 <= w -> (v / 256 ^ w =? 0) = true <-> v < 2 ^ (8 * w).
Proof.
  intros Hv Hw. rewrite <- pow256 by lia.
  assert (0 < 256 ^ w) by (apply Z.pow_pos_nonneg; lia).
  rewrite Z.eqb_eq. split; intros H1.
  - apply Z.div_small_iff in H1; lia.
  - apply Z.div_small; lia.
Qed.

(** C2.  For a non-negative big integer [v] and a positive byte width [w],
    [uintToFixedBE] returns, when [v < 2^(8w)], exactly [w] bytes that are
    the big-endian digits of [v] padded with zeros on the left (byte [i] is
    [v / 256^(w-1-i)] modulo 256, and the bytes decode back to [v]); it
    throws "does not fit" (OverflowError) exactly when [v >= 2^(8w)]; and it
    throws "cannot be negative" (NegativeValueError) on every negative
    value. *)
Theorem uintToFixedBE_fixed_width (v w : Z) (name : string) :
  0 <= v -> 0 < w ->
  (v < 2 ^ (8 * w) ->
     exists out,
       Cli.uintToFixedBE v w name = Ok out
       /\ Z.of_nat (length out) = w
       /\ be_value out = v
       /\ forall i : nat, Z.of_nat i < w ->
            out !! i = Some (byte_of_Z (v / 256 ^ (w - 1 - Z.of_nat i))))
  /\ (Cli.uintToFixedBE v w name = Err (DoesNotFit name w) <-> 2 ^ (8 * w) <= v)
  /\ (forall v', v' < 0 -> Cli.uintToFixedBE v' w name = Err (Negative name)).
Proof.
  intros Hv Hw. rewrite uintToFixedBE_eq by lia.
  pose proof (fits_iff v w ltac:(lia) ltac:(lia)) as Hfit.
  split; [|split].
  - intros Hlt. exists (be_bytes (Z.to_nat w) v).
    rewrite (proj2 Hfit Hlt).
    split; [reflexivity|]. split; [rewrite length_be_bytes; lia|]. split.
    + rewrite be_value_be_bytes, Z2Nat.id, pow256 by lia.
      apply Z.mod_small. lia.
    + intros i Hi. rewrite be_bytes_lookup by lia.
      replace (Z.of_nat (Z.to_nat w - 1 - i)) with (w - 1 - Z.of_nat i) by lia.
      reflexivity.
  - clear Hfit. destruct (v / 256 ^ w =? 0) eqn:E.
    + apply fits_iff in E; [|lia|lia]. split; [discriminate|lia].
    + split; [|reflexivity]. intros _.
      destruct (Z.lt_ge_cases v (2 ^ (8 * w))) as [Hlt|Hge]; [|exact Hge].
      apply fits_iff in Hlt; [congruence|lia|lia].
  - intros v' Hneg. unfold Cli.uintToFixedBE.
    destruct (Z.ltb_spec v' 0); [reflexivity|lia].
Qed.

Lemma uintToFixedBE_fixed_width_witness :
  0 <= 1000 /\ 0 < 8 /\
  exists out, Cli.uintToFixedBE 1000 8 "timelock" = Ok out
    /\ Z.of_nat (length out) = 8 /\ be_value out = 1000
    /\ forall i : nat, Z.of_nat i < 8 ->
         out !! i = Some (byte_of_Z (1000 / 256 ^ (8 - 1 - Z.of_nat i))).
Proof.
  split; [lia|]. split; [lia|].
  apply (uintToFixedBE_fixed_width 1000 8 "timelock"); lia.
Defined.

(** * Timelock encoding *)

Lemma assertPositiveInt_ok (w : Z) (name : string) :
  0 < w -> Cli.assertPositiveInt (Integer w) name = Ok w.
Proof.
  intros Hw. unfold Cli.assertPositiveInt.
  destruct (Z.leb_spec w 0); [lia|reflexivity].
Qed.

Lemma max_uint64 : Z.shiftl 1 64 - 1 = 2 ^ 64 - 1.
Proof. reflexivity. Qed.

Lemma encodeTimelock_value (t : numeric_input) (v w : Z) :
  0 < w -> timelock_denotes t v ->
  Cli.encodeTimelock t (Some (Integer w)) =
    if (w =? 8) && (v >? 2 ^ 64 - 1) then Err TimelockExceedsUint64
    else Cli.uintToFixedBE v w "timelock".
Proof.
  intros Hw Ht. unfold Cli.encodeTimelock. cbn [Cli.nullish].
  rewrite assertPositiveInt_ok by lia. cbn [bind].
  assert (Hval : match t with
                 | IdStr s => Cli.parseNumericId (IdStr s) "timelock"
                 | IdNum NotInteger => Err TimelockNotInteger
                 | IdNum (Integer z) =>
                     if z <? 0 then Err (Negative "timelock")
                     else if z >? MAX_SAFE_INTEGER then Err TimelockExceedsSafe
                     else Ok z
                 | IdBig v0 => Ok v0
                 end = Ok v).
  { destruct Ht as [->|(s & -> & Hs)]; [reflexivity|exact Hs]. }
  rewrite Hval. cbn [bind]. rewrite max_uint64.
  destruct (w =? 8); [|reflexivity].
  destruct (v >? 2 ^ 64 - 1); reflexivity.
Qed.

(** C4.  For a positive timelock width [w]: the error "timelock exceeds
    uint64 maximum" (RangeExceededError) is thrown only when [w = 8]; at
    [w = 8] every value above [2^64 - 1] is rejected with it and every value
    up to [2^64 - 1] is encoded; at any other positive width every value
    that fits in [w] bytes is encoded, however large; and a machine number
    above [MAX_SAFE_INTEGER] is rejected at every width. *)
Theorem encodeTimelock_uint64_ceiling (w : Z) :
  0 < w ->
  (forall t, Cli.encodeTimelock t (Some (Integer w)) = Err TimelockExceedsUint64 -> w = 8)
  /\ (w = 8 -> forall t v, timelock_denotes t v -> 0 <= v ->
        (v > 2 ^ 64 - 1 ->
           Cli.encodeTimelock t (Some (Integer w)) = Err TimelockExceedsUint64)
        /\ (v <= 2 ^ 64 - 1 ->
           Cli.encodeTimelock t (Some (Integer w)) = Ok (be_bytes 8 v)))
  /\ (w <> 8 -> forall t v, timelock_denotes t v -> 0 <= v < 2 ^ (8 * w) ->
        Cli.encodeTimelock t (Some (Integer w)) = Ok (be_bytes (Z.to_nat w) v))
  /\ (forall z, z > MAX_SAFE_INTEGER ->
        Cli.encodeTimelock (IdNum (Integer z)) (Some (Integer w)) = Err TimelockExceedsSafe).
Proof.
  intros Hw. split; [|split; [|split]].
  - intros t Ht. unfold Cli.encodeTimelock in Ht. cbn [Cli.nullish] in Ht.
    rewrite assertPositiveInt_ok in Ht by lia. cbn [bind] in Ht.
    destruct (Z.eqb_spec w 8) as [E|E]; [exact E|exfalso].
    match type of Ht with bind ?r _ = _ => destruct r as [v|e] eqn:Hr end.
    + cbn [bind] in Ht. unfold Cli.uintToFixedBE in Ht.
      repeat match type of Ht with
             | context [if ?b then _ else _] => destruct b
             | context [let '(_, _) := ?p in _] => destruct p
             end; discriminate.
    + cbn [bind] in Ht. injection Ht as ->.
      destruct t as [s|[z|]|v].
      * unfold Cli.parseNumericId in Hr.
        repeat match type of Hr with
               | context [if ?b then _ else _] => destruct b
               | context [BigInt_of_string ?s] =>
                   unfold BigInt_of_string in Hr; destruct (StringToBigInt s)
               | _ => cbn [bind] in Hr
               end; discriminate.
      * repeat match type of Hr with
               | context [if ?b then _ else _] => destruct b
               end; discriminate.
      * discriminate.
      * discriminate.
  - intros -> t v Ht Hv. rewrite (encodeTimelock_value t v 8) by (lia || exact Ht).
    cbn [Z.eqb Pos.eqb andb]. split; intros Hc.
    + destruct (Z.gtb_spec v (2 ^ 64 - 1)); [reflexivity|lia].
    + destruct (Z.gtb_spec v (2 ^ 64 - 1)); [lia|].
      rewrite uintToFixedBE_eq by lia.
      rewrite (proj2 (fits_iff v 8 ltac:(lia) ltac:(lia))) by (cbn; lia).
      reflexivity.
  - intros Hne t v Ht Hv. rewrite (encodeTimelock_value t v w) by (lia || exact Ht).
    destruct (Z.eqb_spec w 8); [lia|]. cbn [andb].
    rewrite uintToFixedBE_eq by lia.
    rewrite (proj2 (fits_iff v w ltac:(lia) ltac:(lia))) by lia.
    reflexivity.
  - intros z Hz. unfold Cli.encodeTimelock. cbn [Cli.nullish].
    rewrite assertPositiveInt_ok by lia. cbn [bind].
    assert (0 < MAX_SAFE_INTEGER) by reflexivity.
    destruct (Z.ltb_spec z 0); [lia|].
    destruct (Z.gtb_spec z MAX_SAFE_INTEGER); [reflexivity|lia].
Qed.

Lemma encodeTimelock_uint64_ceiling_witness :
  0 < 9 /\
  Cli.encodeTimelock (IdBig (2 ^ 64)) (Some (Integer 9)) = Ok (be_bytes 9 (2 ^ 64)).
Proof.
  split; [lia|].
  apply (proj1 (proj2 (proj2 (encodeTimelock_uint64_ceiling 9 ltac:(lia))))).
  - lia.
  - left. reflexivity.
  - cbn. lia.
Defined.

(** * Hex digits *)

Lemma index_of_alphabet (x : N) :
  Scure.index_of x Scure.alphabet 0 =
    if ((48 <=? x) && (x <=? 57))%N then Some (Z.of_N x - 48)
    else if ((97 <=? x) && (x <=? 102))%N then Some (Z.of_N x - 87)
    else None.
Proof.
  replace Scure.alphabet
    with [48; 49; 50; 51; 52; 53; 54; 55; 56; 57; 97; 98; 99; 100; 101; 102]%N
    by reflexivity.
  cbn [Scure.index_of].
  repeat match goal with
         | |- context [N.eqb x ?a] =>
             destruct (N.eqb_spec x a) as [->|?]; [reflexivity|]
         end.
  destruct (N.leb_spec 48 x), (N.leb_spec x 57); cbn [andb]; try lia;
  destruct (N.leb_spec 97 x), (N.leb_spec x 102); cbn [andb]; try lia;
  reflexivity.
Qed.

Lemma letter_value_digit_value (c : N) :
  Scure.letter_value c = digit_value 16 c.
Proof.
  unfold Scure.letter_value, Scure.toLowerCase1, digit_value.
  rewrite index_of_alphabet.
  destruct (N.leb_spec 65 c), (N.leb_spec c 90); cbn [andb];
  repeat match goal with
         | |- context [N.leb ?a ?b] => destruct (N.leb_spec a b); cbn [andb]
         | |- context [Z.ltb ?a ?b] => destruct (Z.ltb_spec a b)
         end; try lia; try reflexivity; f_equal; lia.
Qed.

Lemma digit_value_16 (c : N) :
  digit_value 16 c =
    if is_hex_digit c
    then Some (Z.of_N (Scure.toLowerCase1 c) - (if (c <=? 57)%N then 48 else 87))
    else None.
Proof.
  unfold digit_value, is_hex_digit, Scure.toLowerCase1.
  repeat match goal with
         | |- context [N.leb ?a ?b] => destruct (N.leb_spec a b); cbn [andb orb]
         | |- context [Z.ltb ?a ?b] => destruct (Z.ltb_spec a b)
         end; try lia; try reflexivity; f_equal; lia.
Qed.

Lemma digit_value_16_Some (c : N) (d : Z) :
  digit_value 16 c = Some d ->
  is_hex_digit c = true /\ 0 <= d < 16 /\ hex_letter d = Scure.toLowerCase1 c.
Proof.
  rewrite digit_value_16. destruct (is_hex_digit c) eqn:Hc; [|discriminate].
  intros [= <-]. split; [reflexivity|].
  unfold is_hex_digit in Hc. unfold Scure.toLowerCase1.
  assert (Hcases : (48 <= c <= 57 \/ 97 <= c <= 102 \/ 65 <= c <= 70)%N).
  { repeat match type of Hc with
           | context [N.leb ?a ?b] => destruct (N.leb_spec a b); cbn [andb orb] in Hc
           end; try discriminate; lia. }
  assert (Hc16 : In c (map N.of_nat (seq 48 10 ++ seq 97 6 ++ seq 65 6))).
  { apply in_map_iff. exists (N.to_nat c). split; [lia|].
    rewrite !in_app_iff, !in_seq. lia. }
  clear Hc Hcases. vm_compute in Hc16.
  repeat (destruct Hc16 as [<-|Hc16];
          [split; [vm_compute; split; [discriminate|reflexivity]|reflexivity]|]).
  destruct Hc16.
Qed.

Lemma digit_value_16_None (c : N) :
  digit_value 16 c = None <-> is_hex_digit c = false.
Proof.
  rewrite digit_value_16. destruct (is_hex_digit c); split; congruence.
Qed.

Lemma hex_letter_lower (d : Z) :
  0 <= d < 16 -> is_lower_hex_digit (hex_letter d) = true.
Proof.
  intros Hd.
  assert (Hin : In d (map Z.of_nat (seq 0 16))).
  { apply in_map_iff. exists (Z.to_nat d). split; [lia|]. apply in_seq. lia. }
  vm_compute in Hin.
  repeat (destruct Hin as [<-|Hin]; [reflexivity|]).
  destruct Hin.
Qed.

(** * Strict hex decoding *)

Lemma list_pair_ind {A : Type} (P : list A -> Prop) :
  P [] -> (forall a, P [a]) -> (forall a b l, P l -> P (a :: b :: l)) ->
  forall l, P l.
Proof.
  intros Hnil Hone Hpair.
  assert (H : forall l, P l /\ forall a, P (a :: l)).
  { induction l as [|b l [IH1 IH2]]; split; auto. }
  intros l. apply H.
Qed.

Lemma letters_values_length (s : jsstring) (ds : list Z) :
  Scure.letters_values s = Some ds -> length ds = length s.
Proof.
  revert ds. induction s as [|c s IH]; intros ds; cbn [Scure.letters_values].
  - intros [= <-]. reflexivity.
  - destruct (Scure.letter_value c); [|discriminate].
    destruct (Scure.letters_values s) as [ds'|]; [|discriminate].
    intros [= <-]. cbn [length]. f_equal. apply IH. reflexivity.
Qed.

Lemma letters_values_hex (s : jsstring) :
  forallb is_hex_digit s = true -> exists ds, Scure.letters_values s = Some ds.
Proof.
  induction s as [|c s IH]; cbn [forallb Scure.letters_values].
  - eexists. reflexivity.
  - intros [Hc Hs]%andb_prop. destruct (IH Hs) as [ds ->].
    rewrite letter_value_digit_value, digit_value_16, Hc. eexists. reflexivity.
Qed.

Lemma letters_values_not_hex (s : jsstring) :
  forallb is_hex_digit s = false -> Scure.letters_values s = None.
Proof.
  induction s as [|c s IH]; cbn [forallb Scure.letters_values]; [discriminate|].
  rewrite letter_value_digit_value, digit_value_16.
  destruct (is_hex_digit c); cbn [andb]; [|reflexivity].
  intros Hs. rewrite (IH Hs). reflexivity.
Qed.

Lemma length_radix2_4_to_8 (ds : list Z) :
  length (Scure.radix2_4_to_8 ds) = (length ds / 2)%nat.
Proof.
  induction ds as [|a|a b l IH] using list_pair_ind; [reflexivity..|].
  cbn [Scure.radix2_4_to_8 length]. rewrite IH.
  change (S (S (length l))) with (1 * 2 + length l)%nat.
  rewrite Nat.div_add_l by lia. reflexivity.
Qed.

Lemma decode_hex (s : jsstring) :
  (length s mod 2 = 0)%nat -> forallb is_hex_digit s = true ->
  exists bytes, Scure.decode s = Some bytes /\ length bytes = (length s / 2)%nat.
Proof.
  intros Heven Hhex. unfold Scure.decode. rewrite Heven. cbn [Nat.eqb negb].
  destruct (letters_values_hex s Hhex) as [ds Hds]. rewrite Hds.
  eexists. split; [reflexivity|].
  rewrite length_radix2_4_to_8, (letters_values_length s ds Hds). reflexivity.
Qed.

Lemma decode_not_hex (s : jsstring) :
  forallb is_hex_digit s = false -> Scure.decode s = None.
Proof.
  intros Hs. unfold Scure.decode. rewrite (letters_values_not_hex s Hs).
  destruct (negb _); reflexivity.
Qed.

Lemma encode_byte_pair (hi lo : Z) :
  0 <= hi < 16 -> 0 <= lo < 16 ->
  Scure.encode_byte (byte_of_Z (16 * hi + lo)) = [hex_letter hi; hex_letter lo].
Proof.
  intros Hhi Hlo. unfold Scure.encode_byte.
  rewrite Z_of_byte_of_Z, Z.mod_small by lia.
  replace ((16 * hi + lo) / 16) with hi by (apply Z.div_unique with lo; lia).
  replace ((16 * hi + lo) mod 16) with lo by (apply Z.mod_unique with hi; lia).
  reflexivity.
Qed.

Lemma encode_radix2_4_to_8 (s : jsstring) (ds : list Z) :
  (length s mod 2 = 0)%nat -> Scure.letters_values s = Some ds ->
  Scure.encode (Scure.radix2_4_to_8 ds) = map Scure.toLowerCase1 s.
Proof.
  revert ds. induction s as [|a|a b r IH] using list_pair_ind; intros ds Heven.
  - intros [= <-]. reflexivity.
  - discriminate Heven.
  - cbn [Scure.letters_values].
    rewrite !letter_value_digit_value.
    destruct (digit_value 16 a) as [hi|] eqn:Ea; [|discriminate].
    destruct (digit_value 16 b) as [lo|] eqn:Eb.
    2:{ destruct (Scure.letters_values r); discriminate. }
    destruct (Scure.letters_values r) as [ds'|]; [|discriminate].
    intros [= <-]. cbn [Scure.radix2_4_to_8 Scure.encode flat_map map].
    apply digit_value_16_Some in Ea as (_ & Hhi & Ha).
    apply digit_value_16_Some in Eb as (_ & Hlo & Hb).
    rewrite encode_byte_pair by lia. rewrite Ha, Hb. cbn [app]. do 2 f_equal.
    apply IH; [|reflexivity].
    cbn [length] in Heven.
    replace (S (S (length r))) with (length r + 1 * 2)%nat in Heven by lia.
    rewrite Nat.Div0.mod_add in Heven. exact Heven.
Qed.

(** Encoding what was decoded gives the text back in lower case. *)
Lemma encode_decode (s : jsstring) (bytes : list byte) :
  Scure.decode s = Some bytes -> Scure.encode bytes = map Scure.toLowerCase1 s.
Proof.
  unfold Scure.decode. destruct (Nat.eqb_spec (length s mod 2) 0) as [He|]; [|discriminate].
  cbn [negb]. destruct (Scure.letters_values s) as [ds|] eqn:Hds; [|discriminate].
  intros [= <-]. apply encode_radix2_4_to_8; assumption.
Qed.

Lemma hexToBytesStrict_Ok (input : jsstring) (bytes : list byte) :
  Cli.hexToBytesStrict input = Ok bytes <->
  Cli.strip0x input <> [] /\ Scure.decode (Cli.strip0x input) = Some bytes.
Proof.
  unfold Cli.hexToBytesStrict. destruct (Cli.strip0x input) as [|c r] eqn:E.
  - cbn. split; [discriminate|]. intros [H _]. congruence.
  - cbn [length Nat.eqb]. unfold Scure.decode.
    destruct (negb _); [split; [discriminate|intros [_ ?]; discriminate]|].
    destruct (option_map _ _); split; try discriminate.
    + intros [= ->]. split; [discriminate|reflexivity].
    + intros [_ [= ->]]. reflexivity.
    + intros [_ ?]. discriminate.
Qed.

(** C5.  With [clean] the text that [strip0x] leaves of the input (white
    space trimmed, one leading [0x]/[0X] removed), [hexToBytesStrict] checks
    in this order: an empty [clean] throws "cannot be empty"
    (EmptyInputError); otherwise an odd length throws "must have even
    length" (OddLengthError); otherwise a character outside [0-9a-fA-F]
    throws "Invalid hex string" (InvalidHexError); otherwise it returns
    bytes whose number is exactly half the length of [clean]. *)
Theorem hexToBytesStrict_cases (input : jsstring) :
  let clean := Cli.strip0x input in
  (clean = [] -> Cli.hexToBytesStrict input = Err HexEmpty)
  /\ (clean <> [] -> (length clean mod 2 <> 0)%nat ->
        Cli.hexToBytesStrict input = Err (HexOddLength (length clean)))
  /\ (clean <> [] -> (length clean mod 2 = 0)%nat ->
        forallb is_hex_digit clean = false ->
        Cli.hexToBytesStrict input = Err HexInvalid)
  /\ (clean <> [] -> (length clean mod 2 = 0)%nat ->
        forallb is_hex_digit clean = true ->
        exists bytes, Cli.hexToBytesStrict input = Ok bytes
          /\ length bytes = (length clean / 2)%nat).
Proof.
  intros clean. unfold Cli.hexToBytesStrict. fold clean.
  split; [|split; [|split]].
  - intros ->. reflexivity.
  - intros Hne Hodd. destruct clean as [|c r]; [congruence|].
    cbn [length Nat.eqb] in *.
    destruct (Nat.eqb_spec (S (length r) mod 2) 0); [lia|reflexivity].
  - intros Hne Heven Hbad. destruct clean as [|c r]; [congruence|].
    cbn [length Nat.eqb] in *. rewrite Heven. cbn [Nat.eqb negb].
    rewrite decode_not_hex by exact Hbad. reflexivity.
  - intros Hne Heven Hhex. destruct clean as [|c r]; [congruence|].
    destruct (decode_hex (c :: r) Heven Hhex) as (bytes & Hdec & Hlen).
    cbn [length Nat.eqb] in *. rewrite Heven. cbn [Nat.eqb negb].
    rewrite Hdec. exists bytes. split; [reflexivity|exact Hlen].
Qed.

(** C9, as the specification states it, fails: [hexToBytesStrict] accepts
    both letter cases (and an optional prefix, and surrounding white space),
    so different input strings decode to the same bytes. *)
Lemma hexToBytesStrict_not_injective :
  Cli.hexToBytesStrict (lit "AB") = Ok [byte_of_Z 171]
  /\ Cli.hexToBytesStrict (lit "0xab") = Ok [byte_of_Z 171]
  /\ lit "AB" <> lit "0xab".
Proof.
  split; [reflexivity|]. split; [reflexivity|]. discriminate.
Qed.

(** C9, amended.  Strict hex decoding is injective up to the normalisation
    it performs: when two inputs decode to the same bytes, the texts left by
    [strip0x] are equal up to the case of the letters.  Indeed the bytes
    determine that text in lower case. *)
Theorem hexToBytesStrict_injective_normalised (a b : jsstring) (bytes : list byte) :
  Cli.hexToBytesStrict a = Ok bytes ->
  Cli.hexToBytesStrict b = Ok bytes ->
  map Scure.toLowerCase1 (Cli.strip0x a) = Scure.encode bytes
  /\ map Scure.toLowerCase1 (Cli.strip0x a) = map Scure.toLowerCase1 (Cli.strip0x b).
Proof.
  intros [_ Ha]%hexToBytesStrict_Ok [_ Hb]%hexToBytesStrict_Ok.
  apply encode_decode in Ha, Hb. split; congruence.
Qed.

Lemma hexToBytesStrict_injective_normalised_witness :
  Cli.hexToBytesStrict (lit "AB") = Ok [byte_of_Z 171]
  /\ Cli.hexToBytesStrict (lit " 0xab ") = Ok [byte_of_Z 171]
  /\ map Scure.toLowerCase1 (Cli.strip0x (lit "AB"))
     = map Scure.toLowerCase1 (Cli.strip0x (lit " 0xab ")).
Proof.
  split; [reflexivity|]. split; [reflexivity|].
  apply (hexToBytesStrict_injective_normalised (lit "AB") (lit " 0xab ") [byte_of_Z 171]);
    reflexivity.
Defined.

(** * Trimming *)

Lemma trimStart_app_ws (l x : jsstring) :
  forallb is_white_space l = true -> trimStart (l ++ x) = trimStart x.
Proof.
  induction l as [|c l IH]; cbn [forallb app trimStart]; [reflexivity|].
  intros [Hc Hl]%andb_prop. rewrite Hc. apply IH, Hl.
Qed.

Lemma trimStart_ws (x : jsstring) :
  forallb is_white_space x = true <-> trimStart x = [].
Proof.
  induction x as [|c x IH]; cbn [forallb trimStart]; [tauto|].
  destruct (is_white_space c); cbn [andb]; [exact IH|].
  split; discriminate.
Qed.

Lemma trimStart_app (x r : jsstring) :
  trimStart x <> [] -> trimStart (x ++ r) = trimStart x ++ r.
Proof.
  induction x as [|c x IH]; cbn [app trimStart]; [congruence|].
  destruct (is_white_space c); [exact IH|reflexivity].
Qed.

Lemma forallb_rev {A : Type} (f : A -> bool) (l : list A) :
  forallb f (rev l) = forallb f l.
Proof.
  induction l as [|a l IH]; [reflexivity|].
  cbn [rev forallb]. rewrite forallb_app, IH. cbn [forallb].
  rewrite andb_true_r. apply andb_comm.
Qed.

Lemma trimEnd_app_ws (x r : jsstring) :
  forallb is_white_space r = true -> trimEnd (x ++ r) = trimEnd x.
Proof.
  intros Hr. unfold trimEnd. rewrite rev_app_distr, trimStart_app_ws; [reflexivity|].
  rewrite forallb_rev. exact Hr.
Qed.

Lemma trim_padding (l s r : jsstring) :
  forallb is_white_space l = true -> forallb is_white_space r = true ->
  trim (l ++ s ++ r) = trim s.
Proof.
  intros Hl Hr. unfold trim. rewrite trimStart_app_ws by exact Hl.
  destruct (trimStart s) as [|c t] eqn:Es.
  - apply trimStart_ws in Es.
    assert (Hsr : forallb is_white_space (s ++ r) = true)
      by (rewrite forallb_app, Es, Hr; reflexivity).
    apply trimStart_ws in Hsr. rewrite Hsr. reflexivity.
  - rewrite trimStart_app by (rewrite Es; discriminate).
    rewrite Es. apply trimEnd_app_ws, Hr.
Qed.

(** C10.  [strip0x] trims white space before it looks for the prefix: for
    every text [s] and all-white-space paddings [l] and [r], the padded
    string leaves the same text as [s]; so [hexToBytesStrict] and [toBytes]
    give the same outcome on both, and when [s] decodes to [bytes] the
    padded string decodes to [bytes] too. *)
Theorem hexToBytesStrict_ignores_padding (l s r : jsstring) :
  forallb is_white_space l = true -> forallb is_white_space r = true ->
  Cli.strip0x (l ++ s ++ r) = Cli.strip0x s
  /\ Cli.hexToBytesStrict (l ++ s ++ r) = Cli.hexToBytesStrict s
  /\ Cli.toBytes (Str (l ++ s ++ r)) = Cli.toBytes (Str s)
  /\ forall bytes, Cli.hexToBytesStrict s = Ok bytes ->
       Cli.hexToBytesStrict (l ++ s ++ r) = Ok bytes.
Proof.
  intros Hl Hr.
  assert (Hstrip : Cli.strip0x (l ++ s ++ r) = Cli.strip0x s).
  { unfold Cli.strip0x. rewrite trim_padding by assumption. reflexivity. }
  assert (Hdec : Cli.hexToBytesStrict (l ++ s ++ r) = Cli.hexToBytesStrict s).
  { unfold Cli.hexToBytesStrict. rewrite Hstrip. reflexivity. }
  split; [exact Hstrip|]. split; [exact Hdec|]. split; [exact Hdec|].
  intros bytes Hs. rewrite Hdec. exact Hs.
Qed.

Lemma hexToBytesStrict_ignores_padding_witness :
  forallb is_white_space (lit "  ") = true
  /\ forallb is_white_space [9; 10; 160]%N = true
  /\ Cli.hexToBytesStrict (lit "  " ++ lit "0xAb01" ++ [9; 10; 160]%N)
     = Ok [byte_of_Z 171; byte_of_Z 1].
Proof.
  split; [reflexivity|]. split; [reflexivity|].
  apply (hexToBytesStrict_ignores_padding (lit "  ") (lit "0xAb01") [9; 10; 160]%N);
    reflexivity.
Defined.

(** * The derivation entry points *)

Lemma assertPositiveInt_Ok (n : number) (name : string) (z : Z) :
  Cli.assertPositiveInt n name = Ok z <-> n = Integer z /\ 0 < z.
Proof.
  unfold Cli.assertPositiveInt. destruct n as [z'|].
  - destruct (Z.leb_spec z' 0); split.
    + discriminate.
    + intros [[= ->] ?]. lia.
    + intros [= ->]. split; [reflexivity|lia].
    + intros [[= ->] _]. reflexivity.
  - split; [discriminate|]. intros [? _]. discriminate.
Qed.

Lemma assertExactLength_Ok (bytes : list byte) (len : Z) (name : string) :
  Cli.assertExactLength bytes len name = Ok tt <-> Z.of_nat (length bytes) = len.
Proof.
  unfold Cli.assertExactLength. destruct (Z.eqb_spec (Z.of_nat (length bytes)) len);
    cbn [negb]; split; congruence.
Qed.

Lemma assertExactLength_Err (bytes : list byte) (len : Z) (name : string) :
  Z.of_nat (length bytes) <> len ->
  Cli.assertExactLength bytes len name = Err (WrongLength name len (length bytes)).
Proof.
  intros Hne. unfold Cli.assertExactLength.
  destruct (Z.eqb_spec (Z.of_nat (length bytes)) len); [contradiction|reflexivity].
Qed.

(** C6.  With an [outputLength] that resolves to a positive integer [len]
    (32 when absent) and a [timelockWidth] that resolves to a positive
    integer, [deriveKeyFromInitialKeyAndTimelock] throws "initialKey must be
    exactly [len] bytes" (WrongKeyLengthError) for every initial key whose
    bytes are not exactly [len] many, shorter or longer, whatever the
    timelock; and whenever it does invoke HKDF, the keying material is the
    coerced key unchanged, of exactly [len] bytes. *)
Theorem deriveKey_wrong_key_length
    (initialKey : bytes_input) (timelock : numeric_input)
    (opts : Cli.DerivationOptions) (keyBytes : list byte) (len width : Z) :
  Cli.toBytes initialKey = Ok keyBytes ->
  Cli.nullish (Cli.outputLength opts) Cli.KEY_LENGTH = Integer len -> 0 < len ->
  Cli.nullish (Cli.timelockWidth opts) Cli.TIMELOCK_BYTES = Integer width -> 0 < width ->
  (Z.of_nat (length keyBytes) <> len ->
     Cli.deriveKeyFromInitialKeyAndTimelock initialKey timelock opts
       = Throw (WrongLength "initialKey" len (length keyBytes)))
  /\ (forall c, first_call (Cli.deriveKeyFromInitialKeyAndTimelock initialKey timelock opts)
                  = Some c ->
        hkdf_ikm c = keyBytes /\ Z.of_nat (length keyBytes) = len).
Proof.
  intros Hkey Hlen Hpos Hw Hwpos.
  unfold Cli.deriveKeyFromInitialKeyAndTimelock.
  rewrite Hkey, Hlen, Hw. cbn [pbind].
  rewrite !assertPositiveInt_ok by lia. cbn [pbind].
  split.
  - intros Hne. rewrite assertExactLength_Err by exact Hne. reflexivity.
  - intros c. destruct (Cli.assertExactLength keyBytes len "initialKey") as [[]|e] eqn:Hex;
      cbn [pbind]; [|discriminate].
    apply assertExactLength_Ok in Hex.
    destruct (Cli.encodeTimelock timelock (Some (Integer width))); cbn [pbind first_call];
      [|discriminate].
    intros [= <-]. split; [reflexivity|exact Hex].
Qed.

Lemma deriveKey_wrong_key_length_witness :
  Cli.deriveKeyFromInitialKeyAndTimelock
    (Str (lit "0xaa")) (IdNum (Integer 1000)) Cli.no_options
  = Throw (WrongLength "initialKey" 32 1).
Proof.
  apply (deriveKey_wrong_key_length (Str (lit "0xaa")) (IdNum (Integer 1000))
           Cli.no_options [byte_of_Z 170] 32 8);
    first [reflexivity | lia | discriminate].
Defined.

Ltac break_match :=
  match goal with
  | |- context [match ?x with _ => _ end] => destruct x eqn:?
  end.

Lemma assertMinLength_Ok (bytes : list byte) (min : Z) (name : string) :
  min <= Z.of_nat (length bytes) -> Cli.assertMinLength bytes min name = Ok tt.
Proof.
  intros H. unfold Cli.assertMinLength.
  destruct (Z.ltb_spec (Z.of_nat (length bytes)) min); [lia|reflexivity].
Qed.

Lemma parseNumericId_not_TooShort (id : numeric_input) (name : string) (e : error) :
  Cli.parseNumericId id name = Err e -> forall n m g, e <> TooShort n m g.
Proof.
  unfold Cli.parseNumericId, BigInt_of_string, bind.
  repeat break_match; intros H; inversion H; subst; intros; try discriminate;
    destruct (StringToBigInt _); congruence.
Qed.

Lemma uintToFixedBE_not_TooShort (v w : Z) (name : string) (e : error) :
  Cli.uintToFixedBE v w name = Err e -> forall n m g, e <> TooShort n m g.
Proof.
  unfold Cli.uintToFixedBE.
  repeat break_match; intros H; inversion H; intros; discriminate.
Qed.

Lemma encodeChainId_not_TooShort (id : numeric_input) (w : option number) (e : error) :
  Cli.encodeChainId id w = Err e -> forall n m g, e <> TooShort n m g.
Proof.
  unfold Cli.encodeChainId, Cli.assertPositiveInt.
  destruct (Cli.nullish w Cli.CHAIN_ID_BYTES) as [z|]; cbn [bind].
  2:{ intros [= <-]; intros; discriminate. }
  destruct (z <=? 0); cbn [bind]; [intros [= <-]; intros; discriminate|].
  destruct (Cli.parseNumericId id "chainId") eqn:Hp; cbn [bind].
  - apply uintToFixedBE_not_TooShort.
  - intros [= <-]. eapply parseNumericId_not_TooShort, Hp.
Qed.

(** C7.  [createInitialKeyFromSignature] throws "signature must be at least
    32 bytes" (SignatureTooShortError) for every signature, hex string or
    binary, whose bytes are fewer than 32, whatever the chain id and the
    options; a signature of 32 bytes or more never makes it throw that
    error. *)
Theorem createInitialKey_signature_floor
    (signature : bytes_input) (chainId : numeric_input)
    (opts : Cli.DerivationOptions) (sigBytes : list byte) :
  Cli.toBytes signature = Ok sigBytes ->
  (Z.of_nat (length sigBytes) < 32 ->
     Cli.createInitialKeyFromSignature signature chainId opts
       = Throw (TooShort "signature" 32 (length sigBytes)))
  /\ (32 <= Z.of_nat (length sigBytes) ->
      forall name min got,
        Cli.createInitialKeyFromSignature signature chainId opts
          <> Throw (TooShort name min got)).
Proof.
  intros Hsig. unfold Cli.createInitialKeyFromSignature.
  rewrite Hsig. cbn [pbind]. split.
  - intros Hlt. unfold Cli.assertMinLength, Cli.MIN_SIGNATURE_BYTES.
    destruct (Z.ltb_spec (Z.of_nat (length sigBytes)) 32); [reflexivity|lia].
  - intros Hge name min got.
    rewrite assertMinLength_Ok by exact Hge. cbn [pbind].
    unfold Cli.assertPositiveInt at 1 2.
    destruct (Cli.nullish (Cli.outputLength opts) Cli.KEY_LENGTH) as [len|];
      cbn [pbind]; [|discriminate].
    destruct (len <=? 0); cbn [pbind]; [discriminate|].
    destruct (Cli.nullish (Cli.chainIdWidth opts) Cli.CHAIN_ID_BYTES) as [w|];
      cbn [pbind]; [|discriminate].
    destruct (w <=? 0); cbn [pbind]; [discriminate|].
    destruct (Cli.encodeChainId chainId (Some (Integer w))) as [b|e] eqn:He;
      cbn [pbind]; [discriminate|].
    intros [= ->]. eapply encodeChainId_not_TooShort; [exact He|reflexivity].
Qed.

Lemma createInitialKey_signature_floor_witness :
  Cli.createInitialKeyFromSignature (Str (lit "0xaa")) (IdStr (lit "1")) Cli.no_options
  = Throw (TooShort "signature" 32 1).
Proof.
  apply (createInitialKey_signature_floor (Str (lit "0xaa")) (IdStr (lit "1"))
           Cli.no_options [byte_of_Z 170]); [reflexivity|cbn; lia].
Defined.

(** * The returned key *)

Lemma length_encode (bytes : list byte) :
  length (Scure.encode bytes) = (2 * length bytes)%nat.
Proof.
  induction bytes as [|b bytes IH]; [reflexivity|].
  unfold Scure.encode in *. cbn [flat_map]. rewrite length_app, IH.
  cbn [Scure.encode_byte length]. lia.
Qed.

Lemma letter_value_hex_letter (d : Z) :
  0 <= d < 16 -> Scure.letter_value (hex_letter d) = Some d.
Proof.
  intros Hd.
  assert (Hin : In d (map Z.of_nat (seq 0 16))).
  { apply in_map_iff. exists (Z.to_nat d). split; [lia|]. apply in_seq. lia. }
  vm_compute in Hin.
  repeat (destruct Hin as [<-|Hin]; [reflexivity|]).
  destruct Hin.
Qed.

Lemma nibbles_range (b : byte) :
  0 <= Z_of_byte b / 16 < 16 /\ 0 <= Z_of_byte b mod 16 < 16.
Proof.
  pose proof (Z_of_byte_range b) as Hb. split.
  - split; [apply Z.div_pos; lia|apply Z.div_lt_upper_bound; lia].
  - apply Z.mod_pos_bound. lia.
Qed.

Lemma letters_values_encode (bytes : list byte) :
  option_map Scure.radix2_4_to_8 (Scure.letters_values (Scure.encode bytes)) = Some bytes.
Proof.
  induction bytes as [|b bytes IH]; [reflexivity|].
  destruct (nibbles_range b) as [Hhi Hlo].
  cbn [Scure.encode flat_map Scure.encode_byte app Scure.letters_values].
  rewrite !letter_value_hex_letter by assumption.
  change (flat_map Scure.encode_byte bytes) with (Scure.encode bytes).
  destruct (Scure.letters_values (Scure.encode bytes)) as [ds|]; [|discriminate].
  cbn [option_map Scure.radix2_4_to_8] in *. injection IH as ->.
  do 2 f_equal. rewrite <- (byte_of_Z_of_byte b) at 3. f_equal.
  pose proof (Z.div_mod (Z_of_byte b) 16 ltac:(lia)). lia.
Qed.

(** The hex text written for some bytes reads back as those bytes. *)
Lemma decode_encode (bytes : list byte) :
  Scure.decode (Scure.encode bytes) = Some bytes.
Proof.
  unfold Scure.decode. rewrite length_encode.
  rewrite Nat.mul_comm, Nat.Div0.mod_mul. cbn [Nat.eqb negb].
  apply letters_values_encode.
Qed.

Lemma encode_lower_hex (bytes : list byte) :
  forallb is_lower_hex_digit (Scure.encode bytes) = true.
Proof.
  induction bytes as [|b bytes IH]; [reflexivity|].
  destruct (nibbles_range b) as [Hhi Hlo].
  cbn [Scure.encode flat_map Scure.encode_byte app forallb].
  rewrite !hex_letter_lower by assumption. exact IH.
Qed.

Lemma run_hkdf_output (hkdf : hkdf_call -> option (list byte))
    (c : hkdf_call) (len : Z) (s : jsstring) :
  run hkdf (Invoke c (fun out =>
    (Cli.assertExactLength out len "HKDF output" ;;
     Return (Cli.bytesToHex0x out))%prog)) = Ok s ->
  exists out, hkdf c = Some out /\ Z.of_nat (length out) = len
    /\ s = Cli.bytesToHex0x out.
Proof.
  cbn [run]. destruct (hkdf c) as [out|]; [|discriminate].
  destruct (Cli.assertExactLength out len "HKDF output") as [[]|e] eqn:Hlen;
    cbn [pbind run]; [|discriminate].
  intros [= <-]. exists out. apply assertExactLength_Ok in Hlen. auto.
Qed.

(** C8.  Whenever [createInitialKeyFromSignature] or
    [deriveKeyFromInitialKeyAndTimelock] returns, over any HKDF
    implementation, [outputLength] resolves to a positive integer [len]
    (32 when absent) and the returned string is ["0x"] followed by the hex
    text of exactly [len] bytes: it has [2 * len + 2] characters, its digits
    are all in [0-9a-f], and they read back as those [len] bytes. *)
Theorem derived_key_format
    (hkdf : hkdf_call -> option (list byte)) (p : prog jsstring)
    (opts : Cli.DerivationOptions) (s : jsstring) :
  (exists signature chainId, p = Cli.createInitialKeyFromSignature signature chainId opts)
  \/ (exists initialKey timelock,
        p = Cli.deriveKeyFromInitialKeyAndTimelock initialKey timelock opts) ->
  run hkdf p = Ok s ->
  exists (len : Z) (out : list byte),
    Cli.nullish (Cli.outputLength opts) Cli.KEY_LENGTH = Integer len
    /\ 0 < len
    /\ Z.of_nat (length out) = len
    /\ s = lit "0x" ++ Scure.encode out
    /\ Z.of_nat (length s) = 2 * len + 2
    /\ forallb is_lower_hex_digit (Scure.encode out) = true
    /\ Scure.decode (Scure.encode out) = Some out.
Proof.
  intros Hp Hrun.
  assert (Hcall : exists len c,
            Cli.nullish (Cli.outputLength opts) Cli.KEY_LENGTH = Integer len
            /\ 0 < len
            /\ p = Invoke c (fun out =>
                 (Cli.assertExactLength out len "HKDF output" ;;
                  Return (Cli.bytesToHex0x out))%prog)).
  { destruct Hp as [(signature & chainId & ->)|(initialKey & timelock & ->)].
    - revert Hrun. unfold Cli.createInitialKeyFromSignature.
      destruct (Cli.toBytes signature) as [sigBytes|]; cbn [pbind run]; [|discriminate].
      destruct (Cli.assertMinLength _ _ _); cbn [pbind run]; [|discriminate].
      destruct (Cli.assertPositiveInt _ "outputLength") as [len|] eqn:Hlen;
        cbn [pbind run]; [|discriminate].
      apply assertPositiveInt_Ok in Hlen as [Hlen Hpos].
      destruct (Cli.assertPositiveInt _ "chainIdWidth"); cbn [pbind run]; [|discriminate].
      destruct (Cli.encodeChainId _ _) as [chainIdBytes|]; cbn [pbind]; [|discriminate].
      intros _. eauto 6.
    - revert Hrun. unfold Cli.deriveKeyFromInitialKeyAndTimelock.
      destruct (Cli.toBytes initialKey) as [keyBytes|]; cbn [pbind run]; [|discriminate].
      destruct (Cli.assertPositiveInt _ "outputLength") as [len|] eqn:Hlen;
        cbn [pbind run]; [|discriminate].
      apply assertPositiveInt_Ok in Hlen as [Hlen Hpos].
      destruct (Cli.assertPositiveInt _ "timelockWidth"); cbn [pbind run]; [|discriminate].
      destruct (Cli.assertExactLength keyBytes _ _); cbn [pbind run]; [|discriminate].
      destruct (Cli.encodeTimelock _ _) as [timelockBytes|]; cbn [pbind]; [|discriminate].
      intros _. eauto 6. }
  destruct Hcall as (len & c & Hlen & Hpos & ->).
  apply run_hkdf_output in Hrun as (out & _ & Hout & ->).
  exists len, out. unfold Cli.bytesToHex0x.
  repeat split; try assumption.
  - rewrite length_app, length_encode. cbn [lit list_ascii_of_string map length]. lia.
  - apply encode_lower_hex.
  - apply decode_encode.
Qed.

Lemma derived_key_format_witness :
  exists (len : Z) (out : list byte),
    Cli.nullish (Cli.outputLength Cli.no_options) Cli.KEY_LENGTH = Integer len
    /\ 0 < len
    /\ Z.of_nat (length out) = len
    /\ lit "0x" ++ Scure.encode (replicate 32 Byte.x00) = lit "0x" ++ Scure.encode out
    /\ Z.of_nat (length (lit "0x" ++ Scure.encode (replicate 32 Byte.x00))) = 2 * len + 2
    /\ forallb is_lower_hex_digit (Scure.encode out) = true
    /\ Scure.decode (Scure.encode out) = Some out.
Proof.
  apply (derived_key_format
           (fun c => Some (replicate (Z.to_nat (hkdf_keylen c)) Byte.x00))
           (Cli.createInitialKeyFromSignature
              (Bin (replicate 32 (byte_of_Z 170))) (IdStr (lit "1")) Cli.no_options)
           Cli.no_options
           (lit "0x" ++ Scure.encode (replicate 32 Byte.x00))).
  - left. eexists _, _. reflexivity.
  - vm_compute. reflexivity.
Defined.

(** * Numeric texts *)

Lemma digit_value_range (radix : Z) (c : N) (d : Z) :
  digit_value radix c = Some d ->
  0 <= d < radix
  /\ ((48 <= c <= 57)%N \/ (97 <= c <= 122)%N \/ (65 <= c <= 90)%N).
Proof.
  unfold digit_value.
  repeat match goal with
         | |- context [N.leb ?a ?b] => destruct (N.leb_spec a b); cbn [andb]
         | |- context [Z.ltb ?a ?b] => destruct (Z.ltb_spec a b)
         end; intros [= <-]; lia.
Qed.

Lemma digit_not_white_space (radix : Z) (c : N) (d : Z) :
  digit_value radix c = Some d -> is_white_space c = false.
Proof.
  intros [_ Hc]%digit_value_range. unfold is_white_space. cbn [existsb].
  repeat match goal with
         | |- context [N.eqb ?a ?b] => destruct (N.eqb_spec a b); [lia|]
         | |- context [N.leb ?a ?b] => destruct (N.leb_spec a b); [lia|]
         end.
  reflexivity.
Qed.

Lemma digit_10_decimal (c : N) (d : Z) :
  digit_value 10 c = Some d -> is_decimal_digit c = true.
Proof.
  unfold digit_value, is_decimal_digit.
  repeat match goal with
         | |- context [N.leb ?a ?b] => destruct (N.leb_spec a b); cbn [andb]
         | |- context [Z.ltb ?a ?b] => destruct (Z.ltb_spec a b)
         end; intros [= <-]; try reflexivity; lia.
Qed.

Lemma digits_from_app (radix acc : Z) (s t : jsstring) :
  digits_from radix acc (s ++ t) =
    match digits_from radix acc s with
    | Some m => digits_from radix m t
    | None => None
    end.
Proof.
  revert acc. induction s as [|c s IH]; intros acc; cbn [app digits_from]; [reflexivity|].
  destruct (digit_value radix c); [apply IH|reflexivity].
Qed.

Lemma numeral_sound (radix : Z) (s : jsstring) (n : Z) :
  numeral radix s n ->
  parse_digits radix s = Some n
  /\ 0 <= n
  /\ Forall (fun c => exists d, digit_value radix c = Some d) s.
Proof.
  assert (Hparse : forall t, t <> [] -> parse_digits radix t = digits_from radix 0 t)
    by (intros [|? ?]; [congruence|reflexivity]).
  induction 1 as [c d Hd|s n c d Hs (IHp & IHn & IHf) Hd].
  - cbn [parse_digits digits_from]. rewrite Hd.
    apply digit_value_range in Hd as Hr. split; [f_equal; lia|].
    split; [lia|]. repeat constructor. eauto.
  - apply digit_value_range in Hd as Hr.
    assert (Hne : s <> []) by (intros ->; discriminate IHp).
    rewrite Hparse in IHp by exact Hne.
    rewrite Hparse by (destruct s; discriminate).
    rewrite digits_from_app, IHp. cbn [digits_from]. rewrite Hd.
    split; [reflexivity|]. split; [nia|].
    apply Forall_app. split; [exact IHf|]. repeat constructor. eauto.
Qed.

Lemma trimStart_id (s : jsstring) :
  Forall (fun c => is_white_space c = false) s -> trimStart s = s.
Proof.
  intros Hs. destruct Hs as [|c s Hc _]; [reflexivity|].
  cbn [trimStart]. rewrite Hc. reflexivity.
Qed.

Lemma trim_id (s : jsstring) :
  Forall (fun c => is_white_space c = false) s -> trim s = s.
Proof.
  intros Hs. unfold trim, trimEnd. rewrite (trimStart_id s Hs).
  rewrite trimStart_id by (apply Forall_rev; exact Hs).
  apply rev_involutive.
Qed.

Lemma startsWith_app (s p : jsstring) :
  startsWith s p = true -> exists r, s = p ++ r.
Proof.
  revert s. induction p as [|a p IH]; intros s.
  - exists s. reflexivity.
  - destruct s as [|c s]; cbn [startsWith]; [discriminate|].
    intros [Hc Hs]%andb_prop. apply N.eqb_eq in Hc as ->.
    destruct (IH s Hs) as [r ->]. exists r. reflexivity.
Qed.

Lemma startsWith_decimal (s p : jsstring) :
  forallb is_decimal_digit s = true -> forallb is_decimal_digit p = false ->
  startsWith s p = false.
Proof.
  intros Hs Hp. destruct (startsWith s p) eqn:E; [|reflexivity].
  apply startsWith_app in E as [r ->].
  rewrite forallb_app, Hp in Hs. discriminate.
Qed.

Lemma parseNumericId_decimal (s : jsstring) (n : Z) (name : string) :
  decimal_text s n -> Cli.parseNumericId (IdStr s) name = Ok n.
Proof.
  intros (Hparse & Hn & Hchars)%numeral_sound.
  assert (Hne : s <> []) by (intros ->; discriminate Hparse).
  assert (Hdec : forallb is_decimal_digit s = true).
  { apply forallb_forall. intros c Hc.
    rewrite Forall_forall in Hchars. rewrite <- list_elem_of_In in Hc.
    destruct (Hchars c Hc) as [d Hd]. eapply digit_10_decimal, Hd. }
  assert (Htrim : trim s = s).
  { apply trim_id. eapply Forall_impl; [exact Hchars|].
    intros c [d Hd]. eapply digit_not_white_space, Hd. }
  assert (Hbig : BigInt_of_string s = Ok n).
  { unfold BigInt_of_string, StringToBigInt. rewrite Htrim.
    rewrite !startsWith_decimal by (exact Hdec || reflexivity). cbn [orb].
    rewrite Hparse. destruct s; [congruence|reflexivity]. }
  unfold Cli.parseNumericId. rewrite Htrim.
  destruct s as [|c r]; [congruence|]. cbn [length Nat.eqb].
  rewrite !startsWith_decimal by (exact Hdec || reflexivity). cbn [orb].
  unfold test_decimal. rewrite Hdec. cbn [negb].
  rewrite Hbig. cbn [bind]. destruct (Z.ltb_spec n 0); [lia|reflexivity].
Qed.

Lemma parseNumericId_hex (s : jsstring) (n : Z) (name : string) :
  hex_text s n -> Cli.parseNumericId (IdStr s) name = Ok n.
Proof.
  intros (ds & Hs & (Hparse & Hn & Hchars)%numeral_sound).
  assert (Hne : ds <> []) by (intros ->; discriminate Hparse).
  assert (Hws : Forall (fun c => is_white_space c = false) ds).
  { eapply Forall_impl; [exact Hchars|].
    intros c [d Hd]. eapply digit_not_white_space, Hd. }
  assert (Htrim : trim s = s).
  { apply trim_id. destruct Hs as [-> | ->]; apply Forall_app; split; try exact Hws;
      repeat constructor. }
  assert (Hprefix : startsWith s (lit "0x") || startsWith s (lit "0X") = true)
    by (destruct Hs as [-> | ->]; reflexivity).
  assert (Hslice : slice s 2 = ds) by (destruct Hs as [-> | ->]; reflexivity).
  assert (Hbig : BigInt_of_string s = Ok n).
  { unfold BigInt_of_string, StringToBigInt. rewrite Htrim, Hprefix, Hslice, Hparse.
    destruct Hs as [-> | ->]; reflexivity. }
  unfold Cli.parseNumericId. rewrite Htrim, Hprefix, Hslice, Hbig. cbn [bind].
  assert (Hlen : (length s =? 0)%nat = false) by (destruct Hs as [-> | ->]; reflexivity).
  rewrite Hlen. destruct ds as [|c r]; [congruence|]. cbn [length Nat.eqb].
  destruct (Z.ltb_spec n 0); [lia|reflexivity].
Qed.

Lemma encodeChainId_texts (d h : jsstring) (n : Z) (w : option number) :
  decimal_text d n -> hex_text h n ->
  Cli.encodeChainId (IdStr d) w = Cli.encodeChainId (IdStr h) w.
Proof.
  intros Hd Hh. unfold Cli.encodeChainId.
  rewrite (parseNumericId_decimal d n), (parseNumericId_hex h n) by assumption.
  reflexivity.
Qed.

Lemma encodeTimelock_texts (d h : jsstring) (n : Z) (w : option number) :
  decimal_text d n -> hex_text h n ->
  Cli.encodeTimelock (IdStr d) w = Cli.encodeTimelock (IdStr h) w.
Proof.
  intros Hd Hh. unfold Cli.encodeTimelock.
  rewrite (parseNumericId_decimal d n), (parseNumericId_hex h n) by assumption.
  reflexivity.
Qed.

(** C1.  When a pure-decimal text [d] and a [0x]-prefixed hex text [h]
    denote the same non-negative integer [n], [parseNumericId] reads both as
    [n]; hence [createInitialKeyFromSignature] is the same program for the
    chain ids [d] and [h], and [deriveKeyFromInitialKeyAndTimelock] is the
    same program for the timelocks [d] and [h]: the same HKDF call and, over
    every HKDF implementation, the same returned string or thrown error. *)
Theorem numeric_text_equivalence (d h : jsstring) (n : Z) :
  decimal_text d n -> hex_text h n ->
  (forall name, Cli.parseNumericId (IdStr d) name = Ok n
                /\ Cli.parseNumericId (IdStr h) name = Ok n)
  /\ (forall signature opts,
        Cli.createInitialKeyFromSignature signature (IdStr d) opts
        = Cli.createInitialKeyFromSignature signature (IdStr h) opts)
  /\ (forall initialKey opts,
        Cli.deriveKeyFromInitialKeyAndTimelock initialKey (IdStr d) opts
        = Cli.deriveKeyFromInitialKeyAndTimelock initialKey (IdStr h) opts)
  /\ (forall hkdf signature initialKey opts,
        run hkdf (Cli.createInitialKeyFromSignature signature (IdStr d) opts)
        = run hkdf (Cli.createInitialKeyFromSignature signature (IdStr h) opts)
        /\ run hkdf (Cli.deriveKeyFromInitialKeyAndTimelock initialKey (IdStr d) opts)
           = run hkdf (Cli.deriveKeyFromInitialKeyAndTimelock initialKey (IdStr h) opts)).
Proof.
  intros Hd Hh.
  assert (Hc : forall signature opts,
             Cli.createInitialKeyFromSignature signature (IdStr d) opts
             = Cli.createInitialKeyFromSignature signature (IdStr h) opts).
  { intros signature opts. unfold Cli.createInitialKeyFromSignature.
    rewrite (encodeChainId_texts d h n) by assumption. reflexivity. }
  assert (Ht : forall initialKey opts,
             Cli.deriveKeyFromInitialKeyAndTimelock initialKey (IdStr d) opts
             = Cli.deriveKeyFromInitialKeyAndTimelock initialKey (IdStr h) opts).
  { intros initialKey opts. unfold Cli.deriveKeyFromInitialKeyAndTimelock.
    rewrite (encodeTimelock_texts d h n) by assumption. reflexivity. }
  split; [|split; [exact Hc|split; [exact Ht|]]].
  - intros name. split; [apply parseNumericId_decimal|apply parseNumericId_hex]; assumption.
  - intros hkdf signature initialKey opts. rewrite Hc, Ht. split; reflexivity.
Qed.

Lemma decimal_text_255 : decimal_text (lit "255") 255.
Proof.
  exact (numeral_snoc 10 _ _ 53%N 5
           (numeral_snoc 10 _ _ 53%N 5 (numeral_one 10 50%N 2 eq_refl) eq_refl) eq_refl).
Defined.

Lemma hex_text_0xff : hex_text (lit "0xff") 255.
Proof.
  exists (lit "ff"). split; [left; reflexivity|].
  exact (numeral_snoc 16 _ _ 102%N 15 (numeral_one 16 102%N 15 eq_refl) eq_refl).
Defined.

Lemma numeric_text_equivalence_witness :
  decimal_text (lit "255") 255 /\ hex_text (lit "0xff") 255
  /\ Cli.createInitialKeyFromSignature
       (Bin (replicate 32 (byte_of_Z 170))) (IdStr (lit "255")) Cli.no_options
     = Cli.createInitialKeyFromSignature
         (Bin (replicate 32 (byte_of_Z 170))) (IdStr (lit "0xff")) Cli.no_options.
Proof.
  split; [exact decimal_text_255|]. split; [exact hex_text_0xff|].
  apply (numeric_text_equivalence (lit "255") (lit "0xff") 255
           decimal_text_255 hex_text_0xff).
Defined.

(** * Domain separation labels *)

(** In the library of [cli.ts] the default labels of the two stages are
    different byte sequences, and each stage passes its own to HKDF. *)
Lemma Cli_default_labels_distinct :
  Cli.INFO_INITIAL <> Cli.INFO_TIMELOCK
  /\ (forall signature chainId c,
        first_call (Cli.createInitialKeyFromSignature signature chainId Cli.no_options)
          = Some c -> hkdf_info c = Cli.INFO_INITIAL)
  /\ (forall initialKey timelock c,
        first_call (Cli.deriveKeyFromInitialKeyAndTimelock initialKey timelock Cli.no_options)
          = Some c -> hkdf_info c = Cli.INFO_TIMELOCK).
Proof.
  split; [discriminate|]. split.
  - intros signature chainId c. unfold Cli.createInitialKeyFromSignature.
    repeat (match goal with
            | |- context [pbind ?r _] => destruct r; cbn [pbind first_call]
            end; try discriminate).
    intros [= <-]. reflexivity.
  - intros initialKey timelock c. unfold Cli.deriveKeyFromInitialKeyAndTimelock.
    repeat (match goal with
            | |- context [pbind ?r _] => destruct r; cbn [pbind first_call]
            end; try discriminate).
    intros [= <-]. reflexivity.
Qed.

(** C3 fails on [index.ts]: its two stages pass one and the same label,
    [INFO], to HKDF.  With the same key bytes and a chain id whose hex
    digits are those of the timelock ([0x03e8] is 1000) the two stages make
    the identical HKDF call, where the library of [cli.ts] keeps the stages
    apart by [INFO_INITIAL] and [INFO_TIMELOCK]. *)
Theorem Index_stages_share_label :
  (forall signature chainId,
     option_map hkdf_info (first_call (Index.createInitialKeyFromSignature signature chainId))
     = Some Index.INFO)
  /\ (forall initialKey timelock c,
        first_call (Index.deriveKeyFromInitialKeyAndTimelock initialKey timelock) = Some c ->
        hkdf_info c = Index.INFO)
  /\ (let key := Bin (replicate 32 (byte_of_Z 170)) in
      first_call (Index.createInitialKeyFromSignature key (Str (lit "0x03e8")))
      = Some (Hkdf (replicate 32 (byte_of_Z 170)) [byte_of_Z 3; byte_of_Z 232] Index.INFO 32)
      /\ first_call (Index.deriveKeyFromInitialKeyAndTimelock key (IdNum (Integer 1000)))
         = Some (Hkdf (replicate 32 (byte_of_Z 170)) [byte_of_Z 3; byte_of_Z 232] Index.INFO 32)).
Proof.
  split; [reflexivity|]. split.
  - intros initialKey timelock c. unfold Index.deriveKeyFromInitialKeyAndTimelock.
    match goal with
    | |- context [pbind ?r _] => destruct r; cbn [pbind first_call]
    end; [|discriminate].
    intros [= <-]. reflexivity.
  - split; reflexivity.
Qed.

(** * The version of [index.ts] and numeric texts *)

(** [index.ts] does not parse the chain id as a number: it hex-decodes it,
    so ["255"] and ["0xff"] reach HKDF as the salts [25] and [ff]. *)
Lemma Index_chainId_salts (signature : bytes_input) :
  option_map hkdf_salt
    (first_call (Index.createInitialKeyFromSignature signature (Str (lit "255"))))
  = Some [byte_of_Z 37]
  /\ option_map hkdf_salt
       (first_call (Index.createInitialKeyFromSignature signature (Str (lit "0xff"))))
     = Some [byte_of_Z 255].
Proof. split; reflexivity. Qed.

(** What [index.ts] returns does not depend on the derived bytes: the value
    of [hkdfSync] is an [ArrayBuffer], and its [toString] gives the same
    text for every buffer. *)
Lemma Index_returned_string
    (hkdf : hkdf_call -> option (list byte)) (p : prog jsstring) (s : jsstring) :
  (exists signature chainId, p = Index.createInitialKeyFromSignature signature chainId)
  \/ (exists initialKey timelock,
        p = Index.deriveKeyFromInitialKeyAndTimelock initialKey timelock) ->
  run hkdf p = Ok s -> s = lit "0x[object ArrayBuffer]".
Proof.
  intros [(signature & chainId & ->)|(initialKey & timelock & ->)].
  - cbn [Index.createInitialKeyFromSignature run].
    destruct (hkdf _); [|discriminate]. intros [= <-]. reflexivity.
  - unfold Index.deriveKeyFromInitialKeyAndTimelock.
    match goal with
    | |- context [pbind ?r _] => destruct r; cbn [pbind run]
    end; [|discriminate].
    destruct (hkdf _); [|discriminate]. intros [= <-]. reflexivity.
Qed.

(** * Scenarios of [tests/index.test.ts], run on the library of [cli.ts] *)

Example rejects_empty_hex :
  Cli.createInitialKeyFromSignature (Str (lit "0x")) (IdStr (lit "1")) Cli.no_options
  = Throw HexEmpty.
Proof. reflexivity. Qed.

Example rejects_odd_length_hex :
  Cli.createInitialKeyFromSignature (Str (lit "0xaaa")) (IdStr (lit "1")) Cli.no_options
  = Throw (HexOddLength 3).
Proof. reflexivity. Qed.

Example rejects_invalid_hex :
  Cli.createInitialKeyFromSignature (Str (lit "0xGGGG")) (IdStr (lit "1")) Cli.no_options
  = Throw HexInvalid.
Proof. reflexivity. Qed.

Example rejects_non_numeric_chain_id :
  Cli.createInitialKeyFromSignature sig_aa (IdStr (lit "solana:mainnet-beta")) Cli.no_options
  = Throw (NotNumeric "chainId").
Proof. vm_compute. reflexivity. Qed.

Example rejects_negative_timelock :
  Cli.deriveKeyFromInitialKeyAndTimelock sig_aa (IdNum (Integer (-100))) Cli.no_options
  = Throw (Negative "timelock").
Proof. vm_compute. reflexivity. Qed.

Example rejects_non_integer_timelock :
  Cli.deriveKeyFromInitialKeyAndTimelock sig_aa (IdNum NotInteger) Cli.no_options
  = Throw TimelockNotInteger.
Proof. vm_compute. reflexivity. Qed.

Example rejects_too_long_initial_key :
  Cli.deriveKeyFromInitialKeyAndTimelock
    (Str (lit "0x" ++ concat (replicate 33 (lit "aa")))) (IdNum (Integer 1000)) Cli.no_options
  = Throw (WrongLength "initialKey" 32 33).
Proof. vm_compute. reflexivity. Qed.

Example chain_id_255_salt :
  option_map hkdf_salt
    (first_call (Cli.createInitialKeyFromSignature sig_aa (IdStr (lit "0xff")) Cli.no_options))
  = Some (replicate 31 Byte.x00 ++ [byte_of_Z 255]).
Proof. vm_compute. reflexivity. Qed.

Example timelock_1000_salt :
  option_map hkdf_salt
    (first_call (Cli.deriveKeyFromInitialKeyAndTimelock sig_aa (IdNum (Integer 1000))
                   Cli.no_options))
  = Some (map byte_of_Z [0; 0; 0; 0; 0; 0; 3; 232]).
Proof. vm_compute. reflexivity. Qed.

(** * Numeric ids: every string case *)

Lemma trimStart_snoc (x : jsstring) (c : N) :
  is_white_space c = false -> trimStart (x ++ [c]) = trimStart x ++ [c].
Proof.
  intros Hc. induction x as [|a x IH]; cbn [app trimStart].
  - rewrite Hc. reflexivity.
  - destruct (is_white_space a); [exact IH|reflexivity].
Qed.

Lemma trimStart_idempotent (s : jsstring) : trimStart (trimStart s) = trimStart s.
Proof.
  induction s as [|c s IH]; [reflexivity|]. cbn [trimStart].
  destruct (is_white_space c) eqn:Hc; [exact IH|].
  cbn [trimStart]. rewrite Hc. reflexivity.
Qed.

Lemma trimEnd_cons (c : N) (r : jsstring) :
  is_white_space c = false -> trimEnd (c :: r) = c :: trimEnd r.
Proof.
  intros Hc. unfold trimEnd. cbn [rev].
  rewrite trimStart_snoc by exact Hc. rewrite rev_app_distr. reflexivity.
Qed.

Lemma trim_idempotent (s : jsstring) : trim (trim s) = trim s.
Proof.
  unfold trim.
  assert (Hstart : trimStart (trimEnd (trimStart s)) = trimEnd (trimStart s)).
  { destruct (trimStart s) as [|c r] eqn:E; [reflexivity|].
    assert (Hc : is_white_space c = false).
    { pose proof (trimStart_idempotent s) as Hi. rewrite E in Hi.
      cbn [trimStart] in Hi. destruct (is_white_space c); [|reflexivity].
      exfalso. apply (f_equal (@length N)) in Hi. cbn [length] in Hi.
      assert (Hle : forall x : jsstring, (length (trimStart x) <= length x)%nat).
      { induction x as [|a x IHx]; cbn [trimStart length]; [lia|].
        destruct (is_white_space a); cbn [length]; lia. }
      specialize (Hle r). lia. }
    rewrite trimEnd_cons by exact Hc. cbn [trimStart]. rewrite Hc. reflexivity. }
  rewrite Hstart. unfold trimEnd. rewrite rev_involutive, trimStart_idempotent.
  reflexivity.
Qed.

Lemma parseNumericId_trim (id : jsstring) (name : string) :
  Cli.parseNumericId (IdStr id) name = Cli.parseNumericId (IdStr (trim id)) name.
Proof.
  unfold Cli.parseNumericId. rewrite trim_idempotent. reflexivity.
Qed.

Lemma numeral_complete (radix : Z) (s : jsstring) (n : Z) :
  parse_digits radix s = Some n -> numeral radix s n.
Proof.
  revert n. induction s as [|c s IH] using rev_ind; intros n; [discriminate|].
  assert (Hp : parse_digits radix (s ++ [c]) = digits_from radix 0 (s ++ [c]))
    by (destruct s; reflexivity).
  rewrite Hp, digits_from_app. clear Hp.
  destruct s as [|a s].
  - cbn [digits_from]. destruct (digit_value radix c) as [d|] eqn:Hd; [|discriminate].
    intros [= <-]. cbn [app]. replace (0 * radix + d) with d by lia.
    apply numeral_one, Hd.
  - change (digits_from radix 0 (a :: s)) with (parse_digits radix (a :: s)).
    destruct (parse_digits radix (a :: s)) as [m|] eqn:Hm; [|discriminate].
    cbn [digits_from]. destruct (digit_value radix c) as [d|] eqn:Hd; [|discriminate].
    intros [= <-]. apply numeral_snoc; [apply IH; reflexivity|exact Hd].
Qed.

Lemma digits_from_all (radix acc : Z) (s : jsstring) :
  forallb (fun c => match digit_value radix c with Some _ => true | None => false end) s
    = true ->
  exists n, digits_from radix acc s = Some n.
Proof.
  revert acc. induction s as [|c s IH]; intros acc; cbn [forallb digits_from].
  - eauto.
  - destruct (digit_value radix c); cbn [andb]; [|discriminate]. apply IH.
Qed.

Lemma digits_from_some_bad (radix acc : Z) (s : jsstring) :
  forallb (fun c => match digit_value radix c with Some _ => true | None => false end) s
    = false ->
  digits_from radix acc s = None.
Proof.
  revert acc. induction s as [|c s IH]; intros acc; cbn [forallb digits_from]; [discriminate|].
  destruct (digit_value radix c); cbn [andb]; [apply IH|reflexivity].
Qed.

Lemma is_hex_digit_digit_value (c : N) :
  is_hex_digit c = match digit_value 16 c with Some _ => true | None => false end.
Proof.
  rewrite digit_value_16. destruct (is_hex_digit c); reflexivity.
Qed.

Lemma is_decimal_digit_digit_value (c : N) :
  is_decimal_digit c = match digit_value 10 c with Some _ => true | None => false end.
Proof.
  unfold digit_value, is_decimal_digit.
  repeat match goal with
         | |- context [N.leb ?a ?b] => destruct (N.leb_spec a b); cbn [andb]
         | |- context [Z.ltb ?a ?b] => destruct (Z.ltb_spec a b)
         end; try reflexivity; lia.
Qed.

Lemma forallb_pointwise {A : Type} (f g : A -> bool) (l : list A) :
  (forall x, f x = g x) -> forallb f l = forallb g l.
Proof.
  intros H. induction l as [|a l IH]; [reflexivity|].
  cbn [forallb]. rewrite H, IH. reflexivity.
Qed.

Lemma hex_digits_numeral (ds : jsstring) :
  ds <> [] -> forallb is_hex_digit ds = true -> exists n, numeral 16 ds n.
Proof.
  intros Hne Hhex.
  rewrite (forallb_pointwise _ _ _ is_hex_digit_digit_value) in Hhex.
  destruct (digits_from_all 16 0 ds Hhex) as [n Hn].
  exists n. apply numeral_complete. destruct ds; [congruence|exact Hn].
Qed.

Lemma decimal_digits_numeral (s : jsstring) :
  s <> [] -> forallb is_decimal_digit s = true -> exists n, numeral 10 s n.
Proof.
  intros Hne Hdec.
  rewrite (forallb_pointwise _ _ _ is_decimal_digit_digit_value) in Hdec.
  destruct (digits_from_all 10 0 s Hdec) as [n Hn].
  exists n. apply numeral_complete. destruct s; [congruence|exact Hn].
Qed.

(** The text [parseNumericId] works on has a [0x]/[0X] prefix. *)
Lemma prefixed_split (s : jsstring) :
  startsWith s (lit "0x") || startsWith s (lit "0X") = true ->
  (s = lit "0x" ++ slice s 2 \/ s = lit "0X" ++ slice s 2).
Proof.
  intros [H|H]%orb_prop; apply startsWith_app in H as [r ->]; [left|right]; reflexivity.
Qed.

Lemma parseNumericId_empty (id : jsstring) (name : string) :
  trim id = [] -> Cli.parseNumericId (IdStr id) name = Err (EmptyId name).
Proof. intros H. unfold Cli.parseNumericId. rewrite H. reflexivity. Qed.

Lemma parseNumericId_empty_hex (id : jsstring) (name : string) :
  startsWith (trim id) (lit "0x") || startsWith (trim id) (lit "0X") = true ->
  slice (trim id) 2 = [] ->
  Cli.parseNumericId (IdStr id) name = Err (EmptyHexId name).
Proof.
  intros Hp Hs. unfold Cli.parseNumericId. rewrite Hp, Hs.
  destruct (prefixed_split _ Hp) as [-> | ->]; rewrite Hs; reflexivity.
Qed.

Lemma parseNumericId_bad_hex (id : jsstring) (name : string) :
  startsWith (trim id) (lit "0x") || startsWith (trim id) (lit "0X") = true ->
  forallb is_hex_digit (slice (trim id) 2) = false ->
  Cli.parseNumericId (IdStr id) name = Err SyntaxError.
Proof.
  intros Hp Hbad.
  assert (Hne : slice (trim id) 2 <> []) by (intros E; rewrite E in Hbad; discriminate).
  rewrite (forallb_pointwise _ _ _ is_hex_digit_digit_value) in Hbad.
  assert (Hparse : parse_digits 16 (slice (trim id) 2) = None).
  { destruct (slice (trim id) 2) eqn:E; [congruence|].
    apply digits_from_some_bad. exact Hbad. }
  unfold Cli.parseNumericId, BigInt_of_string, StringToBigInt.
  rewrite trim_idempotent, Hp, Hparse.
  destruct (trim id) as [|c r]; [discriminate Hp|].
  destruct (slice (c :: r) 2); [congruence|reflexivity].
Qed.

Lemma parseNumericId_good_hex (id : jsstring) (name : string) :
  startsWith (trim id) (lit "0x") || startsWith (trim id) (lit "0X") = true ->
  slice (trim id) 2 <> [] ->
  forallb is_hex_digit (slice (trim id) 2) = true ->
  exists n, numeral 16 (slice (trim id) 2) n
            /\ Cli.parseNumericId (IdStr id) name = Ok n.
Proof.
  intros Hp Hne Hhex. destruct (hex_digits_numeral _ Hne Hhex) as [n Hn].
  exists n. split; [exact Hn|].
  rewrite parseNumericId_trim. apply parseNumericId_hex.
  exists (slice (trim id) 2). split; [apply prefixed_split, Hp|exact Hn].
Qed.

Lemma parseNumericId_not_numeric (id : jsstring) (name : string) :
  trim id <> [] ->
  startsWith (trim id) (lit "0x") || startsWith (trim id) (lit "0X") = false ->
  forallb is_decimal_digit (trim id) = false ->
  Cli.parseNumericId (IdStr id) name = Err (NotNumeric name).
Proof.
  intros Hne Hp Hbad. unfold Cli.parseNumericId. rewrite Hp.
  destruct (trim id) as [|c r] eqn:E; [congruence|].
  cbn [length Nat.eqb]. unfold test_decimal. rewrite Hbad. reflexivity.
Qed.

Lemma parseNumericId_good_decimal (id : jsstring) (name : string) :
  trim id <> [] ->
  forallb is_decimal_digit (trim id) = true ->
  exists n, numeral 10 (trim id) n /\ Cli.parseNumericId (IdStr id) name = Ok n.
Proof.
  intros Hne Hdec. destruct (decimal_digits_numeral _ Hne Hdec) as [n Hn].
  exists n. split; [exact Hn|].
  rewrite parseNumericId_trim. apply parseNumericId_decimal, Hn.
Qed.

(** X1.  On a string, with [s] the trimmed text, [parseNumericId] does
    exactly one of six things: an empty [s] throws "cannot be empty"; a
    [0x]/[0X] prefix with nothing behind it throws "hex cannot be empty";
    a prefix followed by a character outside [0-9a-fA-F] lets the
    [SyntaxError] of [BigInt] through; a prefix followed by hex digits
    returns the integer they denote; without prefix, a character outside
    [0-9] throws "must be numeric"; and decimal digits return the integer
    they denote. *)
Theorem parseNumericId_string_cases (id : jsstring) (name : string) :
  let s := trim id in
  let prefixed := startsWith s (lit "0x") || startsWith s (lit "0X") in
  (s = [] -> Cli.parseNumericId (IdStr id) name = Err (EmptyId name))
  /\ (prefixed = true -> slice s 2 = [] ->
        Cli.parseNumericId (IdStr id) name = Err (EmptyHexId name))
  /\ (prefixed = true -> forallb is_hex_digit (slice s 2) = false ->
        Cli.parseNumericId (IdStr id) name = Err SyntaxError)
  /\ (prefixed = true -> slice s 2 <> [] -> forallb is_hex_digit (slice s 2) = true ->
        exists n, numeral 16 (slice s 2) n /\ Cli.parseNumericId (IdStr id) name = Ok n)
  /\ (s <> [] -> prefixed = false -> forallb is_decimal_digit s = false ->
        Cli.parseNumericId (IdStr id) name = Err (NotNumeric name))
  /\ (s <> [] -> forallb is_decimal_digit s = true ->
        exists n, numeral 10 s n /\ Cli.parseNumericId (IdStr id) name = Ok n).
Proof.
  cbv zeta. repeat split.
  - apply parseNumericId_empty.
  - apply parseNumericId_empty_hex.
  - apply parseNumericId_bad_hex.
  - apply parseNumericId_good_hex; assumption.
  - apply parseNumericId_not_numeric.
  - apply parseNumericId_good_decimal; assumption.
Qed.

Lemma parse_digits_nonneg (radix : Z) (s : jsstring) (n : Z) :
  parse_digits radix s = Some n -> 0 <= n.
Proof.
  intros H. apply numeral_complete, numeral_sound in H. tauto.
Qed.

(** X2.  [parseNumericId] never throws "must be non-negative": behind a
    prefix [BigInt] reads unsigned hex digits, and without one the text has
    passed [/^\d+$/], so both guards [v < 0n] are dead.  What it returns for
    a string or a number is never negative, while a bigint is handed back
    as it is, negative or not. *)
Theorem parseNumericId_sign (id : numeric_input) (name : string) :
  (forall name', Cli.parseNumericId id name <> Err (MustBeNonNegative name'))
  /\ (forall v, Cli.parseNumericId id name = Ok v -> (forall z, id <> IdBig z) -> 0 <= v)
  /\ (forall z, Cli.parseNumericId (IdBig z) name = Ok z).
Proof.
  split; [|split; [|reflexivity]].
  - intros name'. destruct id as [s|[z|]|z]; try discriminate.
    + destruct (trim s) as [|c r] eqn:Es.
      { rewrite parseNumericId_empty by exact Es. discriminate. }
      assert (Hne : trim s <> []) by (rewrite Es; discriminate).
      destruct (startsWith (trim s) (lit "0x") || startsWith (trim s) (lit "0X")) eqn:Hp.
      * destruct (slice (trim s) 2) as [|a t] eqn:Hs.
        { rewrite parseNumericId_empty_hex by assumption. discriminate. }
        destruct (forallb is_hex_digit (slice (trim s) 2)) eqn:Hhex.
        -- destruct (parseNumericId_good_hex s name Hp) as (n & _ & ->);
             [rewrite Hs; discriminate|exact Hhex|discriminate].
        -- rewrite parseNumericId_bad_hex by assumption. discriminate.
      * destruct (forallb is_decimal_digit (trim s)) eqn:Hdec.
        -- destruct (parseNumericId_good_decimal s name Hne Hdec) as (n & _ & ->).
           discriminate.
        -- rewrite parseNumericId_not_numeric by assumption. discriminate.
    + cbn [Cli.parseNumericId]. destruct (z <? 0); discriminate.
  - intros v Hv Hnb. destruct id as [s|[z|]|z].
    + revert Hv. unfold Cli.parseNumericId.
      repeat match goal with
             | |- context [if ?b then _ else _] => destruct b
             end; try discriminate;
      (destruct (BigInt_of_string (trim s)) as [x|]; cbn [bind]; [|discriminate];
       destruct (Z.ltb_spec x 0); [discriminate|]; intros [= <-]; lia).
    + revert Hv. cbn [Cli.parseNumericId].
      destruct (Z.ltb_spec z 0); [discriminate|]. intros [= <-]. lia.
    + discriminate.
    + exfalso. apply (Hnb z). reflexivity.
Qed.

(** X3.  White space around a numeric text does not matter: for
    all-white-space [l] and [r], [parseNumericId] gives the same outcome on
    [l ++ s ++ r] and on [s], and so both entry points are the same program
    for the padded chain id or timelock. *)
Theorem numeric_id_ignores_padding (l s r : jsstring) :
  forallb is_white_space l = true -> forallb is_white_space r = true ->
  (forall name, Cli.parseNumericId (IdStr (l ++ s ++ r)) name
                = Cli.parseNumericId (IdStr s) name)
  /\ (forall signature opts,
        Cli.createInitialKeyFromSignature signature (IdStr (l ++ s ++ r)) opts
        = Cli.createInitialKeyFromSignature signature (IdStr s) opts)
  /\ (forall initialKey opts,
        Cli.deriveKeyFromInitialKeyAndTimelock initialKey (IdStr (l ++ s ++ r)) opts
        = Cli.deriveKeyFromInitialKeyAndTimelock initialKey (IdStr s) opts).
Proof.
  intros Hl Hr.
  assert (Hparse : forall name, Cli.parseNumericId (IdStr (l ++ s ++ r)) name
                                = Cli.parseNumericId (IdStr s) name).
  { intros name. unfold Cli.parseNumericId. rewrite trim_padding by assumption.
    reflexivity. }
  split; [exact Hparse|]. split.
  - intros signature opts. unfold Cli.createInitialKeyFromSignature, Cli.encodeChainId.
    rewrite Hparse. reflexivity.
  - intros initialKey opts. unfold Cli.deriveKeyFromInitialKeyAndTimelock, Cli.encodeTimelock.
    rewrite Hparse. reflexivity.
Qed.

Lemma numeric_id_ignores_padding_witness :
  forallb is_white_space (lit " ") = true
  /\ forallb is_white_space [9; 13; 10]%N = true
  /\ Cli.parseNumericId (IdStr (lit " " ++ lit "0x2A" ++ [9; 13; 10]%N)) "chainId"
     = Cli.parseNumericId (IdStr (lit "0x2A")) "chainId".
Proof.
  split; [reflexivity|]. split; [reflexivity|].
  apply (numeric_id_ignores_padding (lit " ") (lit "0x2A") [9; 13; 10]%N); reflexivity.
Defined.

(** * The fixed-width encoders *)

Lemma uintToFixedBE_Ok_iff (v w : Z) (name : string) (out : list byte) :
  0 <= w ->
  Cli.uintToFixedBE v w name = Ok out <->
  0 <= v < 2 ^ (8 * w) /\ out = be_bytes (Z.to_nat w) v.
Proof.
  intros Hw. destruct (Z.lt_ge_cases v 0) as [Hneg|Hv].
  - unfold Cli.uintToFixedBE. destruct (Z.ltb_spec v 0); [|lia].
    split; [discriminate|lia].
  - rewrite uintToFixedBE_eq by lia.
    pose proof (fits_iff v w Hv Hw) as Hfit.
    destruct (v / 256 ^ w =? 0).
    + assert (v < 2 ^ (8 * w)) by (apply Hfit; reflexivity).
      split; [intros [= <-]; auto|intros [_ ->]; reflexivity].
    + assert (~ v < 2 ^ (8 * w)) by (intros Hlt; apply Hfit in Hlt; discriminate).
      split; [discriminate|lia].
Qed.

Lemma be_value_be_bytes_small (w v : Z) :
  0 <= w -> 0 <= v < 2 ^ (8 * w) -> be_value (be_bytes (Z.to_nat w) v) = v.
Proof.
  intros Hw Hv. rewrite be_value_be_bytes, Z2Nat.id, pow256 by lia.
  apply Z.mod_small. lia.
Qed.

Lemma encodeChainId_Ok_iff (id : numeric_input) (width : option number) (out : list byte) :
  Cli.encodeChainId id width = Ok out <->
  exists w v,
    Cli.nullish width Cli.CHAIN_ID_BYTES = Integer w /\ 0 < w
    /\ Cli.parseNumericId id "chainId" = Ok v
    /\ 0 <= v < 2 ^ (8 * w)
    /\ out = be_bytes (Z.to_nat w) v.
Proof.
  unfold Cli.encodeChainId. split.
  - destruct (Cli.assertPositiveInt _ _) as [w|] eqn:Hw; cbn [bind]; [|discriminate].
    apply assertPositiveInt_Ok in Hw as [Hw Hpos].
    destruct (Cli.parseNumericId id "chainId") as [v|] eqn:Hv; cbn [bind]; [|discriminate].
    intros Henc. apply uintToFixedBE_Ok_iff in Henc as [Hr ->]; [|lia].
    exists w, v. auto.
  - intros (w & v & Hw & Hpos & Hv & Hr & ->).
    rewrite Hw, assertPositiveInt_ok, Hv by lia. cbn [bind].
    apply uintToFixedBE_Ok_iff; [lia|auto].
Qed.

(** X4.  [encodeChainId] returns bytes exactly when the width (32 when
    absent) is a positive integer [w], the chain id parses to some [v], and
    [0 <= v < 2^(8w)]; the bytes are then the [w]-byte big-endian form of
    [v]: [w] of them, decoding to [v]. *)
Theorem encodeChainId_returns
    (id : numeric_input) (width : option number) (out : list byte) :
  Cli.encodeChainId id width = Ok out <->
  exists w v,
    Cli.nullish width Cli.CHAIN_ID_BYTES = Integer w /\ 0 < w
    /\ Cli.parseNumericId id "chainId" = Ok v
    /\ 0 <= v < 2 ^ (8 * w)
    /\ out = be_bytes (Z.to_nat w) v
    /\ Z.of_nat (length out) = w
    /\ be_value out = v.
Proof.
  rewrite encodeChainId_Ok_iff. split.
  - intros (w & v & Hw & Hpos & Hv & Hr & ->). exists w, v.
    repeat split; try assumption; try lia.
    + rewrite length_be_bytes. lia.
    + apply be_value_be_bytes_small; lia.
  - intros (w & v & Hw & Hpos & Hv & Hr & -> & _). exists w, v. auto.
Qed.

(** X5.  Chain separation at the level of the salt: when two chain ids are
    encoded at the same width, the byte sequences are equal exactly when
    the ids parse to the same integer. *)
Theorem encodeChainId_injective
    (a b : numeric_input) (width : option number) (oa ob : list byte) :
  Cli.encodeChainId a width = Ok oa -> Cli.encodeChainId b width = Ok ob ->
  (oa = ob <-> Cli.parseNumericId a "chainId" = Cli.parseNumericId b "chainId").
Proof.
  intros (w & va & Hw & Hpos & Ha & Hra & ->)%encodeChainId_Ok_iff
         (w' & vb & Hw' & _ & Hb & Hrb & ->)%encodeChainId_Ok_iff.
  rewrite Hw in Hw'. injection Hw' as <-. rewrite Ha, Hb. split.
  - intros E. apply (f_equal be_value) in E.
    rewrite !be_value_be_bytes_small in E by lia. congruence.
  - intros [= ->]. reflexivity.
Qed.

Lemma encodeChainId_injective_witness :
  [byte_of_Z 0; byte_of_Z 1] = [byte_of_Z 0; byte_of_Z 2]
  <-> Cli.parseNumericId (IdStr (lit "1")) "chainId"
      = Cli.parseNumericId (IdBig 2) "chainId".
Proof.
  apply (encodeChainId_injective (IdStr (lit "1")) (IdBig 2) (Some (Integer 2)));
    reflexivity.
Defined.

Lemma encodeTimelock_Ok_iff (t : numeric_input) (v w : Z) (out : list byte) :
  0 < w -> timelock_denotes t v ->
  Cli.encodeTimelock t (Some (Integer w)) = Ok out <->
  0 <= v < 2 ^ (8 * w) /\ out = be_bytes (Z.to_nat w) v.
Proof.
  intros Hw Ht. rewrite (encodeTimelock_value t v w Hw Ht).
  destruct (Z.eqb_spec w 8) as [->|Hne]; cbn [andb].
  - destruct (Z.gtb_spec v (2 ^ 64 - 1)) as [Hbig|Hsmall].
    + split; [discriminate|]. intros [Hr _]. change (2 ^ (8 * 8)) with (2 ^ 64) in Hr. lia.
    + apply uintToFixedBE_Ok_iff. lia.
  - apply uintToFixedBE_Ok_iff. lia.
Qed.

Lemma encodeTimelock_number (z w : Z) :
  0 < w ->
  Cli.encodeTimelock (IdNum (Integer z)) (Some (Integer w)) =
    if z <? 0 then Err (Negative "timelock")
    else if z >? MAX_SAFE_INTEGER then Err TimelockExceedsSafe
    else Cli.encodeTimelock (IdBig z) (Some (Integer w)).
Proof.
  intros Hw. unfold Cli.encodeTimelock. cbn [Cli.nullish].
  rewrite assertPositiveInt_ok by lia. cbn [bind].
  destruct (z <? 0); [reflexivity|]. destruct (z >? MAX_SAFE_INTEGER); reflexivity.
Qed.

(** X6.  For a positive width [w], [encodeTimelock] returns bytes for a
    bigint or string timelock of value [v] exactly when [0 <= v < 2^(8w)],
    and then the [w]-byte big-endian form of [v].  This holds at [w = 8]
    like at every other width: the uint64 check there rejects nothing that
    would have fitted in eight bytes; it only changes which error is thrown.
    A machine number [z] is encoded exactly when moreover
    [z <= MAX_SAFE_INTEGER]. *)
Theorem encodeTimelock_returns (w : Z) (out : list byte) :
  0 < w ->
  (forall t v, timelock_denotes t v ->
     (Cli.encodeTimelock t (Some (Integer w)) = Ok out <->
      0 <= v < 2 ^ (8 * w) /\ out = be_bytes (Z.to_nat w) v))
  /\ (forall z,
        Cli.encodeTimelock (IdNum (Integer z)) (Some (Integer w)) = Ok out <->
        0 <= z <= MAX_SAFE_INTEGER /\ z < 2 ^ (8 * w) /\ out = be_bytes (Z.to_nat w) z)
  /\ (forall v, 2 ^ 64 <= v ->
        Cli.uintToFixedBE v 8 "timelock" = Err (DoesNotFit "timelock" 8)).
Proof.
  intros Hw. split; [|split].
  - intros t v Ht. apply encodeTimelock_Ok_iff; assumption.
  - intros z. rewrite encodeTimelock_number by exact Hw.
    destruct (Z.ltb_spec z 0); [split; [discriminate|lia]|].
    destruct (Z.gtb_spec z MAX_SAFE_INTEGER); [split; [discriminate|lia]|].
    rewrite (encodeTimelock_Ok_iff (IdBig z) z w out Hw) by (left; reflexivity).
    split; [intros [? ?]|intros (? & ? & ?)]; repeat split; assumption || lia.
  - intros v Hv. rewrite uintToFixedBE_eq by lia.
    destruct (v / 256 ^ 8 =? 0) eqn:E; [|reflexivity].
    apply fits_iff in E; [|lia|lia]. change (2 ^ (8 * 8)) with (2 ^ 64) in E. lia.
Qed.

Lemma encodeTimelock_returns_witness :
  0 < 8 /\
  (Cli.encodeTimelock (IdNum (Integer 1000)) (Some (Integer 8))
     = Ok (map byte_of_Z [0; 0; 0; 0; 0; 0; 3; 232])
   <-> 0 <= 1000 <= MAX_SAFE_INTEGER /\ 1000 < 2 ^ (8 * 8)
       /\ map byte_of_Z [0; 0; 0; 0; 0; 0; 3; 232] = be_bytes (Z.to_nat 8) 1000).
Proof.
  split; [lia|].
  apply (proj1 (proj2 (encodeTimelock_returns 8
           (map byte_of_Z [0; 0; 0; 0; 0; 0; 3; 232]) ltac:(lia)))).
Defined.

(** X7.  Timelock separation at the level of the salt: at one positive
    width, two bigint or string timelocks that are both encoded give equal
    byte sequences exactly when their values are equal. *)
Theorem encodeTimelock_injective
    (a b : numeric_input) (va vb w : Z) (oa ob : list byte) :
  0 < w -> timelock_denotes a va -> timelock_denotes b vb ->
  Cli.encodeTimelock a (Some (Integer w)) = Ok oa ->
  Cli.encodeTimelock b (Some (Integer w)) = Ok ob ->
  (oa = ob <-> va = vb).
Proof.
  intros Hw Ha Hb [Hra ->]%(encodeTimelock_Ok_iff a va w oa Hw Ha)
         [Hrb ->]%(encodeTimelock_Ok_iff b vb w ob Hw Hb).
  split; [|intros ->; reflexivity].
  intros E. apply (f_equal be_value) in E.
  rewrite !be_value_be_bytes_small in E by lia. exact E.
Qed.

Lemma encodeTimelock_injective_witness :
  map byte_of_Z [0; 0; 3; 232] = map byte_of_Z [0; 0; 7; 208] <-> 1000 = 2000.
Proof.
  apply (encodeTimelock_injective (IdBig 1000) (IdStr (lit "2000")) 1000 2000 4);
    first [lia | reflexivity | (left; reflexivity) | idtac].
  right. exists (lit "2000"). split; reflexivity.
Defined.

(** * Widths *)

Lemma be_bytes_zero (k : nat) : be_bytes k 0 = replicate k Byte.x00.
Proof.
  induction k as [|k IH]; [reflexivity|].
  cbn [be_bytes]. change (0 / 256) with 0. rewrite IH.
  change [byte_of_Z 0] with (replicate 1 Byte.x00).
  rewrite <- replicate_add. f_equal. lia.
Qed.

Lemma be_bytes_widen (k n : nat) (v : Z) :
  0 <= v < 256 ^ Z.of_nat n ->
  be_bytes (k + n) v = replicate k Byte.x00 ++ be_bytes n v.
Proof.
  revert v. induction n as [|n IH]; intros v Hv.
  - cbn in Hv. assert (v = 0) as -> by lia.
    rewrite Nat.add_0_r, be_bytes_zero, app_nil_r. reflexivity.
  - rewrite Nat.add_succ_r. cbn [be_bytes].
    rewrite Nat2Z.inj_succ, Z.pow_succ_r in Hv by lia.
    rewrite IH, app_assoc; [reflexivity|].
    split; [apply Z.div_pos; lia|apply Z.div_lt_upper_bound; lia].
Qed.

(** X8.  Width sensitivity of [uintToFixedBE]: a value encoded at width
    [w] is encoded at every larger width [w + k] as the same bytes behind
    [k] zero bytes, so for [k > 0] the two encodings always differ. *)
Theorem uintToFixedBE_widen (v w k : Z) (name : string) (out : list byte) :
  0 <= w -> 0 <= k ->
  Cli.uintToFixedBE v w name = Ok out ->
  Cli.uintToFixedBE v (w + k) name = Ok (replicate (Z.to_nat k) Byte.x00 ++ out)
  /\ (0 < k -> replicate (Z.to_nat k) Byte.x00 ++ out <> out).
Proof.
  intros Hw Hk [Hv ->]%uintToFixedBE_Ok_iff; [|lia]. split.
  - apply uintToFixedBE_Ok_iff; [lia|].
    assert (2 ^ (8 * w) <= 2 ^ (8 * (w + k))) by (apply Z.pow_le_mono_r; lia).
    split; [lia|].
    replace (Z.to_nat (w + k)) with (Z.to_nat k + Z.to_nat w)%nat by lia.
    symmetry. apply be_bytes_widen. rewrite Z2Nat.id, pow256 by lia. exact Hv.
  - intros Hpos E. apply (f_equal (@length byte)) in E.
    rewrite length_app, length_replicate in E. lia.
Qed.

Lemma uintToFixedBE_widen_witness :
  Cli.uintToFixedBE 5 (8 + 24) "chainId"
  = Ok (replicate (Z.to_nat 24) Byte.x00 ++ map byte_of_Z [0; 0; 0; 0; 0; 0; 0; 5]).
Proof.
  apply (uintToFixedBE_widen 5 8 24 "chainId" (map byte_of_Z [0; 0; 0; 0; 0; 0; 0; 5]));
    first [lia | reflexivity].
Defined.

(** * Numbers, bigints and texts *)

(** X9.  The three ways to pass an integer agree.  A pure-decimal text for
    [n], the bigint [n] and, for [0 <= n], the number [n] are the same
    chain id for [encodeChainId]; for [encodeTimelock] the text and the
    bigint agree, and the number agrees with the bigint for every
    [n <= MAX_SAFE_INTEGER], negative ones included (both throw "timelock
    cannot be negative"). *)
Theorem numeric_kinds_agree (d : jsstring) (n : Z) (width : option number) :
  decimal_text d n ->
  Cli.encodeChainId (IdStr d) width = Cli.encodeChainId (IdBig n) width
  /\ Cli.encodeChainId (IdNum (Integer n)) width = Cli.encodeChainId (IdBig n) width
  /\ Cli.encodeTimelock (IdStr d) width = Cli.encodeTimelock (IdBig n) width
  /\ (forall m, m <= MAX_SAFE_INTEGER ->
        Cli.encodeTimelock (IdNum (Integer m)) width
        = Cli.encodeTimelock (IdBig m) width).
Proof.
  intros Hd.
  assert (Hn : 0 <= n) by (apply numeral_sound in Hd; tauto).
  repeat split.
  - unfold Cli.encodeChainId. rewrite (parseNumericId_decimal d n) by exact Hd. reflexivity.
  - unfold Cli.encodeChainId. cbn [Cli.parseNumericId].
    destruct (Z.ltb_spec n 0); [lia|reflexivity].
  - unfold Cli.encodeTimelock. rewrite (parseNumericId_decimal d n) by exact Hd. reflexivity.
  - intros m Hm. unfold Cli.encodeTimelock.
    destruct (Cli.assertPositiveInt _ _) as [w|]; cbn [bind]; [|reflexivity].
    destruct (Z.ltb_spec m 0) as [Hneg|Hpos].
    + cbn [bind]. assert (Hmax : (m >? Z.shiftl 1 64 - 1) = false)
        by (rewrite max_uint64; destruct (Z.gtb_spec m (2 ^ 64 - 1)); [lia|reflexivity]).
      rewrite Hmax. unfold Cli.uintToFixedBE.
      destruct (Z.ltb_spec m 0); [|lia].
      destruct (w =? 8); reflexivity.
    + destruct (Z.gtb_spec m MAX_SAFE_INTEGER); [lia|reflexivity].
Qed.

Lemma numeric_kinds_agree_witness :
  Cli.encodeChainId (IdStr (lit "255")) None = Cli.encodeChainId (IdBig 255) None.
Proof.
  apply (numeric_kinds_agree (lit "255") 255 None decimal_text_255).
Defined.

(** * From bytes to hex text and back *)

Lemma lower_hex_not_white_space (c : N) :
  is_lower_hex_digit c = true -> is_white_space c = false.
Proof.
  unfold is_lower_hex_digit, is_white_space. cbn [existsb]. intros H.
  assert (Hc : (48 <= c <= 57 \/ 97 <= c <= 102)%N).
  { repeat match type of H with
           | context [N.leb ?a ?b] => destruct (N.leb_spec a b); cbn [andb orb] in H
           end; try discriminate; lia. }
  clear H.
  repeat match goal with
         | |- context [N.eqb ?a ?b] => destruct (N.eqb_spec a b); [lia|]
         | |- context [N.leb ?a ?b] => destruct (N.leb_spec a b); [lia|]
         end.
  reflexivity.
Qed.

Lemma strip0x_bytesToHex0x (bytes : list byte) :
  Cli.strip0x (Cli.bytesToHex0x bytes) = Scure.encode bytes.
Proof.
  unfold Cli.strip0x, Cli.bytesToHex0x. rewrite trim_id; [reflexivity|].
  apply Forall_app. split; [repeat constructor|].
  apply Forall_forall. intros c Hc. apply lower_hex_not_white_space.
  pose proof (encode_lower_hex bytes) as Hall. rewrite forallb_forall in Hall.
  apply Hall. apply list_elem_of_In. exact Hc.
Qed.

Lemma hexToBytesStrict_bytesToHex0x (bytes : list byte) :
  bytes <> [] -> Cli.hexToBytesStrict (Cli.bytesToHex0x bytes) = Ok bytes.
Proof.
  intros Hne. apply hexToBytesStrict_Ok. rewrite strip0x_bytesToHex0x.
  split; [|apply decode_encode].
  destruct bytes; [congruence|discriminate].
Qed.

Lemma bytesToHex0x_inj (a b : list byte) :
  Cli.bytesToHex0x a = Cli.bytesToHex0x b -> a = b.
Proof.
  unfold Cli.bytesToHex0x. intros E. apply app_inv_head in E.
  pose proof (decode_encode a) as Ha. rewrite E, decode_encode in Ha. congruence.
Qed.

(** X10.  [bytesToHex0x] and [hexToBytesStrict] are inverse on non-empty
    byte sequences: the text written for [bytes] is read back as [bytes],
    so a returned key can be passed again as a hex string with the same
    effect as passing its bytes; and [bytesToHex0x] is injective.  The
    empty sequence is the exception: it is written as ["0x"], which the
    decoder rejects as empty. *)
Theorem bytesToHex0x_round_trip (bytes : list byte) :
  bytes <> [] ->
  Cli.hexToBytesStrict (Cli.bytesToHex0x bytes) = Ok bytes
  /\ Cli.toBytes (Str (Cli.bytesToHex0x bytes)) = Cli.toBytes (Bin bytes)
  /\ (forall other, Cli.bytesToHex0x other = Cli.bytesToHex0x bytes -> other = bytes)
  /\ Cli.hexToBytesStrict (Cli.bytesToHex0x []) = Err HexEmpty.
Proof.
  intros Hne. repeat split.
  - apply hexToBytesStrict_bytesToHex0x, Hne.
  - cbn [Cli.toBytes]. apply hexToBytesStrict_bytesToHex0x, Hne.
  - intros other. apply bytesToHex0x_inj.
Qed.

Lemma bytesToHex0x_round_trip_witness :
  [byte_of_Z 0; byte_of_Z 171] <> []
  /\ Cli.hexToBytesStrict (Cli.bytesToHex0x [byte_of_Z 0; byte_of_Z 171])
     = Ok [byte_of_Z 0; byte_of_Z 171].
Proof.
  split; [discriminate|].
  apply (bytesToHex0x_round_trip [byte_of_Z 0; byte_of_Z 171]). discriminate.
Defined.

(** * What is handed to HKDF *)

(** X11.  [createInitialKeyFromSignature] invokes HKDF exactly when the
    signature coerces to at least 32 bytes, [outputLength] and
    [chainIdWidth] resolve to positive integers [len] and [w], and the
    chain id parses to a [v] with [0 <= v < 2^(8w)].  The call then has the
    signature bytes as keying material, the [w]-byte big-endian form of [v]
    as salt, the given label or else [INFO_INITIAL] as info, and [len] as
    length.  In every other case it throws, without calling HKDF. *)
Theorem createInitialKey_hkdf_call
    (signature : bytes_input) (chainId : numeric_input)
    (opts : Cli.DerivationOptions) (c : hkdf_call) :
  (first_call (Cli.createInitialKeyFromSignature signature chainId opts) = Some c <->
   exists sigBytes len w v,
     Cli.toBytes signature = Ok sigBytes
     /\ 32 <= Z.of_nat (length sigBytes)
     /\ Cli.nullish (Cli.outputLength opts) Cli.KEY_LENGTH = Integer len /\ 0 < len
     /\ Cli.nullish (Cli.chainIdWidth opts) Cli.CHAIN_ID_BYTES = Integer w /\ 0 < w
     /\ Cli.parseNumericId chainId "chainId" = Ok v
     /\ 0 <= v < 2 ^ (8 * w)
     /\ c = Hkdf sigBytes (be_bytes (Z.to_nat w) v)
              (Cli.nullish (Cli.infoInitialLabel opts) Cli.INFO_INITIAL) len)
  /\ (first_call (Cli.createInitialKeyFromSignature signature chainId opts) = None ->
      exists e, Cli.createInitialKeyFromSignature signature chainId opts = Throw e).
Proof.
  unfold Cli.createInitialKeyFromSignature. split; [split|].
  - destruct (Cli.toBytes signature) as [sigBytes|]; cbn [pbind first_call]; [|discriminate].
    unfold Cli.assertMinLength, Cli.MIN_SIGNATURE_BYTES.
    destruct (Z.ltb_spec (Z.of_nat (length sigBytes)) 32); cbn [pbind first_call];
      [discriminate|].
    destruct (Cli.assertPositiveInt _ "outputLength") as [len|] eqn:Hlen;
      cbn [pbind first_call]; [|discriminate].
    apply assertPositiveInt_Ok in Hlen as [Hlen Hpos].
    destruct (Cli.assertPositiveInt _ "chainIdWidth") as [w|] eqn:Hw;
      cbn [pbind first_call]; [|discriminate].
    apply assertPositiveInt_Ok in Hw as [Hw Hwpos].
    destruct (Cli.encodeChainId chainId _) as [salt|] eqn:Henc;
      cbn [pbind first_call]; [|discriminate].
    apply encodeChainId_Ok_iff in Henc as (w' & v & Hw' & _ & Hv & Hr & ->).
    cbn [Cli.nullish] in Hw'. rewrite Hw in Hw'. injection Hw' as <-.
    intros [= <-]. exists sigBytes, len, w, v. repeat split; assumption || lia.
  - intros (sigBytes & len & w & v & -> & Hmin & Hlen & Hpos & Hw & Hwpos & Hv & Hr & ->).
    cbn [pbind]. rewrite assertMinLength_Ok by exact Hmin. cbn [pbind].
    rewrite Hlen, Hw, !assertPositiveInt_ok by lia. cbn [pbind].
    assert (Henc : Cli.encodeChainId chainId (Some (Integer w))
                   = Ok (be_bytes (Z.to_nat w) v)).
    { apply encodeChainId_Ok_iff. exists w, v. repeat split; assumption || lia. }
    rewrite Henc. reflexivity.
  - repeat match goal with
           | |- context [pbind ?r _] => destruct r; cbn [pbind first_call]
           end; try discriminate; eauto.
Qed.

(** X12.  [deriveKeyFromInitialKeyAndTimelock] invokes HKDF exactly when
    the initial key coerces to bytes, [outputLength] and [timelockWidth]
    resolve to positive integers [len] and [w], the key has exactly [len]
    bytes, and [encodeTimelock] returns a salt at width [w].  The call then
    has the key bytes as keying material, that salt, the given label or
    else [INFO_TIMELOCK] as info, and [len] as length.  In every other case
    it throws, without calling HKDF. *)
Theorem deriveKey_hkdf_call
    (initialKey : bytes_input) (timelock : numeric_input)
    (opts : Cli.DerivationOptions) (c : hkdf_call) :
  (first_call (Cli.deriveKeyFromInitialKeyAndTimelock initialKey timelock opts) = Some c <->
   exists keyBytes len w salt,
     Cli.toBytes initialKey = Ok keyBytes
     /\ Cli.nullish (Cli.outputLength opts) Cli.KEY_LENGTH = Integer len /\ 0 < len
     /\ Cli.nullish (Cli.timelockWidth opts) Cli.TIMELOCK_BYTES = Integer w /\ 0 < w
     /\ Z.of_nat (length keyBytes) = len
     /\ Cli.encodeTimelock timelock (Some (Integer w)) = Ok salt
     /\ Z.of_nat (length salt) = w
     /\ c = Hkdf keyBytes salt
              (Cli.nullish (Cli.infoTimelockLabel opts) Cli.INFO_TIMELOCK) len)
  /\ (first_call (Cli.deriveKeyFromInitialKeyAndTimelock initialKey timelock opts) = None ->
      exists e, Cli.deriveKeyFromInitialKeyAndTimelock initialKey timelock opts = Throw e).
Proof.
  unfold Cli.deriveKeyFromInitialKeyAndTimelock. split; [split|].
  - destruct (Cli.toBytes initialKey) as [keyBytes|]; cbn [pbind first_call]; [|discriminate].
    destruct (Cli.assertPositiveInt _ "outputLength") as [len|] eqn:Hlen;
      cbn [pbind first_call]; [|discriminate].
    apply assertPositiveInt_Ok in Hlen as [Hlen Hpos].
    destruct (Cli.assertPositiveInt _ "timelockWidth") as [w|] eqn:Hw;
      cbn [pbind first_call]; [|discriminate].
    apply assertPositiveInt_Ok in Hw as [Hw Hwpos].
    destruct (Cli.assertExactLength keyBytes len "initialKey") as [[]|] eqn:Hex;
      cbn [pbind first_call]; [|discriminate].
    apply assertExactLength_Ok in Hex.
    destruct (Cli.encodeTimelock timelock _) as [salt|] eqn:Henc;
      cbn [pbind first_call]; [|discriminate].
    intros [= <-]. exists keyBytes, len, w, salt. rewrite Hw in Henc.
    repeat split; try assumption.
    revert Henc. unfold Cli.encodeTimelock. cbn [Cli.nullish].
    rewrite assertPositiveInt_ok by lia. cbn [bind].
    match goal with |- bind ?r _ = _ -> _ => destruct r as [v|]; cbn [bind] end;
      [|discriminate].
    match goal with |- bind ?r _ = _ -> _ => destruct r; cbn [bind] end; [|discriminate].
    intros Hu. destruct (Z.lt_ge_cases v 0) as [Hneg|Hv].
    + unfold Cli.uintToFixedBE in Hu. destruct (Z.ltb_spec v 0); [discriminate|lia].
    + apply uintToFixedBE_Ok_iff in Hu as [_ ->]; [|lia].
      rewrite length_be_bytes. lia.
  - intros (keyBytes & len & w & salt & -> & Hlen & Hpos & Hw & Hwpos & Hex & Henc & _ & ->).
    cbn [pbind]. rewrite Hlen, Hw, !assertPositiveInt_ok by lia. cbn [pbind].
    apply assertExactLength_Ok with (name := "initialKey"%string) in Hex.
    rewrite Hex. cbn [pbind]. rewrite Henc. reflexivity.
  - repeat match goal with
           | |- context [pbind ?r _] => destruct r; cbn [pbind first_call]
           end; try discriminate; eauto.
Qed.

(** * Chaining the two stages *)

Lemma createInitialKey_run_Ok
    (hkdf : hkdf_call -> option (list byte)) (signature : bytes_input)
    (chainId : numeric_input) (opts : Cli.DerivationOptions) (s : jsstring) :
  run hkdf (Cli.createInitialKeyFromSignature signature chainId opts) = Ok s ->
  exists len c out,
    Cli.nullish (Cli.outputLength opts) Cli.KEY_LENGTH = Integer len /\ 0 < len
    /\ first_call (Cli.createInitialKeyFromSignature signature chainId opts) = Some c
    /\ hkdf c = Some out
    /\ Z.of_nat (length out) = len
    /\ s = Cli.bytesToHex0x out.
Proof.
  unfold Cli.createInitialKeyFromSignature.
  destruct (Cli.toBytes signature) as [sigBytes|]; cbn [pbind run]; [|discriminate].
  destruct (Cli.assertMinLength _ _ _); cbn [pbind run]; [|discriminate].
  destruct (Cli.assertPositiveInt _ "outputLength") as [len|] eqn:Hlen;
    cbn [pbind run]; [|discriminate].
  apply assertPositiveInt_Ok in Hlen as [Hlen Hpos].
  destruct (Cli.assertPositiveInt _ "chainIdWidth"); cbn [pbind run]; [|discriminate].
  destruct (Cli.encodeChainId _ _) as [chainIdBytes|]; cbn [pbind]; [|discriminate].
  intros (out & Hout & Hl & ->)%run_hkdf_output.
  exists len, (Hkdf sigBytes chainIdBytes
                 (Cli.nullish (Cli.infoInitialLabel opts) Cli.INFO_INITIAL) len), out.
  repeat split; assumption.
Qed.

(** X13.  The two stages chain under one set of options: whenever
    [createInitialKeyFromSignature] returns a string [s], over any HKDF
    implementation, passing [s] as the initial key of
    [deriveKeyFromInitialKeyAndTimelock] with the same options never throws
    the key-length error; for every timelock that [encodeTimelock] accepts
    at the resolved width, the child stage invokes HKDF with exactly the
    bytes HKDF produced for the initial stage as keying material. *)
Theorem initial_key_feeds_child
    (hkdf : hkdf_call -> option (list byte)) (signature : bytes_input)
    (chainId timelock : numeric_input) (opts : Cli.DerivationOptions)
    (s : jsstring) (w : Z) (salt : list byte) :
  run hkdf (Cli.createInitialKeyFromSignature signature chainId opts) = Ok s ->
  Cli.nullish (Cli.timelockWidth opts) Cli.TIMELOCK_BYTES = Integer w -> 0 < w ->
  Cli.encodeTimelock timelock (Some (Integer w)) = Ok salt ->
  exists len c out,
    Cli.nullish (Cli.outputLength opts) Cli.KEY_LENGTH = Integer len
    /\ first_call (Cli.createInitialKeyFromSignature signature chainId opts) = Some c
    /\ hkdf c = Some out
    /\ Cli.toBytes (Str s) = Ok out
    /\ first_call (Cli.deriveKeyFromInitialKeyAndTimelock (Str s) timelock opts)
       = Some (Hkdf out salt
                 (Cli.nullish (Cli.infoTimelockLabel opts) Cli.INFO_TIMELOCK) len).
Proof.
  intros (len & c & out & Hlen & Hpos & Hc & Hout & Hl & ->)%createInitialKey_run_Ok
         Hw Hwpos Henc.
  assert (Hne : out <> []) by (intros ->; cbn in Hl; lia).
  exists len, c, out. repeat split; try assumption.
  - apply hexToBytesStrict_bytesToHex0x, Hne.
  - unfold Cli.deriveKeyFromInitialKeyAndTimelock. cbn [Cli.toBytes].
    rewrite hexToBytesStrict_bytesToHex0x by exact Hne. cbn [pbind].
    rewrite Hlen, Hw, !assertPositiveInt_ok by lia. cbn [pbind].
    apply assertExactLength_Ok with (name := "initialKey"%string) in Hl.
    rewrite Hl. cbn [pbind]. rewrite Henc. reflexivity.
Qed.

Lemma initial_key_feeds_child_witness :
  exists len c out,
    Cli.nullish (Cli.outputLength Cli.no_options) Cli.KEY_LENGTH = Integer len
    /\ first_call (Cli.createInitialKeyFromSignature sig_aa (IdStr (lit "1")) Cli.no_options)
       = Some c
    /\ (fun c => Some (firstn (Z.to_nat (hkdf_keylen c)) (hkdf_salt c))) c = Some out
    /\ Cli.toBytes (Str (lit "0x" ++ Scure.encode (replicate 31 Byte.x00 ++ [byte_of_Z 1])))
       = Ok out
    /\ first_call (Cli.deriveKeyFromInitialKeyAndTimelock
                     (Str (lit "0x" ++ Scure.encode (replicate 31 Byte.x00 ++ [byte_of_Z 1])))
                     (IdNum (Integer 1000)) Cli.no_options)
       = Some (Hkdf out (map byte_of_Z [0; 0; 0; 0; 0; 0; 3; 232])
                 (Cli.nullish (Cli.infoTimelockLabel Cli.no_options) Cli.INFO_TIMELOCK) len).
Proof.
  apply (initial_key_feeds_child
           (fun c => Some (firstn (Z.to_nat (hkdf_keylen c)) (hkdf_salt c)))
           sig_aa (IdStr (lit "1")) (IdNum (Integer 1000)) Cli.no_options
           (lit "0x" ++ Scure.encode (replicate 31 Byte.x00 ++ [byte_of_Z 1])) 8
           (map byte_of_Z [0; 0; 0; 0; 0; 0; 3; 232]));
    first [lia | (vm_compute; reflexivity)].
Defined.

(** * [index.ts]: coercion by [toBuffer] *)

Lemma Buffer_from_hex_letters (s : jsstring) (ds : list Z) :
  (length s mod 2 = 0)%nat -> Scure.letters_values s = Some ds ->
  Buffer_from_hex s = Scure.radix2_4_to_8 ds.
Proof.
  revert ds. induction s as [|a|a b r IH] using list_pair_ind; intros ds Heven.
  - intros [= <-]. reflexivity.
  - discriminate Heven.
  - cbn [Scure.letters_values Buffer_from_hex].
    rewrite !letter_value_digit_value.
    destruct (digit_value 16 a) as [hi|]; [|discriminate].
    destruct (digit_value 16 b) as [lo|].
    2:{ destruct (Scure.letters_values r); discriminate. }
    destruct (Scure.letters_values r) as [ds'|] eqn:Hr; [|discriminate].
    intros [= <-]. cbn [Scure.radix2_4_to_8]. f_equal.
    apply IH; [|reflexivity].
    cbn [length] in Heven.
    replace (S (S (length r))) with (length r + 1 * 2)%nat in Heven by lia.
    rewrite Nat.Div0.mod_add in Heven. exact Heven.
Qed.

Lemma Buffer_from_hex_decode (s : jsstring) (bytes : list byte) :
  Scure.decode s = Some bytes -> Buffer_from_hex s = bytes.
Proof.
  unfold Scure.decode.
  destruct (Nat.eqb_spec (length s mod 2) 0) as [He|]; [|discriminate]. cbn [negb].
  destruct (Scure.letters_values s) as [ds|] eqn:Hds; [|discriminate].
  intros [= <-]. apply Buffer_from_hex_letters; assumption.
Qed.

(** X14.  On a hex string that the strict decoder of [cli.ts] accepts and
    that carries no surrounding white space and no upper-case [0X] prefix,
    [toBuffer] of [index.ts] yields the same bytes as [hexToBytesStrict]. *)
Theorem Index_toBuffer_agrees (s : jsstring) (bytes : list byte) :
  Cli.hexToBytesStrict s = Ok bytes ->
  trim s = s -> startsWith s (lit "0X") = false ->
  Index.toBuffer (Str s) = bytes.
Proof.
  intros [_ Hdec]%hexToBytesStrict_Ok Htrim Hupper.
  unfold Cli.strip0x in Hdec. rewrite Htrim, Hupper, orb_false_r in Hdec.
  cbn [Index.toBuffer]. unfold Index.normalizeHex.
  apply Buffer_from_hex_decode. exact Hdec.
Qed.

Lemma Index_toBuffer_agrees_witness :
  Index.toBuffer (Str (lit "0xAb01")) = [byte_of_Z 171; byte_of_Z 1].
Proof.
  apply (Index_toBuffer_agrees (lit "0xAb01") [byte_of_Z 171; byte_of_Z 1]); reflexivity.
Defined.

(** X15.  [toBuffer] of [index.ts] never throws; where [cli.ts] trims or
    strips, it silently loses the whole input instead: a string that begins
    with a white-space character, or with the upper-case prefix [0X],
    becomes the empty buffer. *)
Theorem Index_toBuffer_lossy (s : jsstring) :
  (exists c r, s = c :: r /\ is_white_space c = true) \/ startsWith s (lit "0X") = true ->
  Index.toBuffer (Str s) = [].
Proof.
  intros [(c & r & -> & Hc)|Hx]; cbn [Index.toBuffer]; unfold Index.normalizeHex.
  - assert (Hd : digit_value 16 c = None).
    { destruct (digit_value 16 c) as [d|] eqn:Hd; [|reflexivity].
      apply digit_not_white_space in Hd. congruence. }
    assert (Hp : startsWith (c :: r) (lit "0x") = false).
    { change (lit "0x") with [48; 120]%N. cbn [startsWith].
      destruct (N.eqb_spec c 48) as [->|]; [discriminate Hc|reflexivity]. }
    rewrite Hp. destruct r; cbn [Buffer_from_hex]; [reflexivity|].
    rewrite Hd. reflexivity.
  - apply startsWith_app in Hx as [r ->]. reflexivity.
Qed.

Lemma Index_toBuffer_lossy_witness :
  Index.toBuffer (Str (lit " 0xab")) = [].
Proof.
  apply (Index_toBuffer_lossy (lit " 0xab")). left. eexists _, _. split; reflexivity.
Defined.

(** * [index.ts]: the salt of a timelock *)

Lemma digit_value_hex_letter (d : Z) :
  0 <= d < 16 -> digit_value 16 (hex_letter d) = Some d.
Proof.
  intros Hd. rewrite <- letter_value_digit_value. apply letter_value_hex_letter, Hd.
Qed.

Lemma hex_digits_fuel_S (f : nat) (v : Z) (acc : jsstring) :
  hex_digits_fuel (S f) v acc =
    if v / 16 =? 0 then hex_letter (v mod 16) :: acc
    else hex_digits_fuel f (v / 16) (hex_letter (v mod 16) :: acc).
Proof. reflexivity. Qed.

Lemma hex_digits_fuel_spec (f : nat) (v : Z) (acc : jsstring) :
  0 <= v < 16 ^ Z.of_nat (S f) ->
  exists d ds,
    hex_digits_fuel (S f) v acc = hex_letter d :: ds ++ acc
    /\ numeral 16 (hex_letter d :: ds) v
    /\ 0 <= d < 16 /\ (0 < v -> 0 < d).
Proof.
  revert v acc. induction f as [|f IH]; intros v acc Hv.
  - change (16 ^ Z.of_nat 1) with 16 in Hv. rewrite hex_digits_fuel_S.
    rewrite Z.div_small by lia. cbn [Z.eqb]. rewrite Z.mod_small by lia.
    exists v, []. repeat split; try lia.
    apply numeral_one, digit_value_hex_letter. lia.
  - rewrite hex_digits_fuel_S.
    destruct (Z.eqb_spec (v / 16) 0) as [Hz|Hnz].
    + assert (v < 16) by (apply Z.div_small_iff in Hz; lia).
      rewrite Z.mod_small by lia.
      exists v, []. repeat split; try lia.
      apply numeral_one, digit_value_hex_letter. lia.
    + assert (Hq : 0 <= v / 16 < 16 ^ Z.of_nat (S f)).
      { split; [apply Z.div_pos; lia|]. apply Z.div_lt_upper_bound; [lia|].
        rewrite (Nat2Z.inj_succ (S f)), Z.pow_succ_r in Hv by lia. lia. }
      destruct (IH (v / 16) (hex_letter (v mod 16) :: acc) Hq)
        as (d & ds & -> & Hnum & Hd & Hpos).
      exists d, (ds ++ [hex_letter (v mod 16)]).
      pose proof (Z.mod_pos_bound v 16 ltac:(lia)) as Hm.
      repeat split; try lia.
      * rewrite <- app_assoc. reflexivity.
      * replace v with (v / 16 * 16 + v mod 16) at 2
          by (pose proof (Z.div_mod v 16 ltac:(lia)); lia).
        change (hex_letter d :: ds ++ [hex_letter (v mod 16)])
          with ((hex_letter d :: ds) ++ [hex_letter (v mod 16)]).
        apply numeral_snoc; [exact Hnum|apply digit_value_hex_letter; lia].
Qed.

Lemma BigInt_toString16_spec (v : Z) :
  0 <= v ->
  exists d ds,
    BigInt_toString16 v = hex_letter d :: ds
    /\ numeral 16 (hex_letter d :: ds) v
    /\ 0 <= d < 16 /\ (0 < v -> 0 < d).
Proof.
  intros Hv. unfold BigInt_toString16.
  destruct (Z.ltb_spec v 0); [lia|]. rewrite Z.abs_eq by lia.
  assert (Hfuel : 0 <= v < 16 ^ Z.of_nat (S (Z.to_nat (Z.log2 v)))).
  { split; [lia|]. rewrite Nat2Z.inj_succ, Z2Nat.id by apply Z.log2_nonneg.
    destruct (Z.eq_dec v 0) as [->|Hne]; [reflexivity|].
    pose proof (Z.log2_spec v ltac:(lia)) as [_ Hlt].
    pose proof (Z.log2_nonneg v) as Hl.
    eapply Z.lt_le_trans; [exact Hlt|].
    change 16 with (2 ^ 4). rewrite <- Z.pow_mul_r by lia.
    apply Z.pow_le_mono_r; lia. }
  destruct (hex_digits_fuel_spec _ v [] Hfuel) as (d & ds & E & Hnum & Hd & Hpos).
  rewrite app_nil_r in E. eauto 6.
Qed.

Lemma Buffer_from_hex_value (s : jsstring) (a n : Z) :
  (length s mod 2 = 0)%nat -> digits_from 16 a s = Some n ->
  fold_left (fun acc b => acc * 256 + Z_of_byte b) (Buffer_from_hex s) a = n.
Proof.
  revert a. induction s as [|x|x y r IH] using list_pair_ind; intros a Heven.
  - intros [= <-]. reflexivity.
  - discriminate Heven.
  - cbn [digits_from Buffer_from_hex].
    destruct (digit_value 16 x) as [hi|] eqn:Hx; [|discriminate].
    destruct (digit_value 16 y) as [lo|] eqn:Hy; [|discriminate].
    apply digit_value_range in Hx as [Hhi _]. apply digit_value_range in Hy as [Hlo _].
    intros Hn. cbn [fold_left]. rewrite Z_of_byte_of_Z, Z.mod_small by lia.
    apply IH.
    + cbn [length] in Heven.
      replace (S (S (length r))) with (length r + 1 * 2)%nat in Heven by lia.
      rewrite Nat.Div0.mod_add in Heven. exact Heven.
    + rewrite <- Hn. f_equal. lia.
Qed.

(** The buffer [Buffer.from(padded, "hex")] built from the hex text of a
    positive bigint, padded to an even number of digits. *)
Lemma timelock_hex_buffer (v : Z) :
  0 < v ->
  exists b rest,
    Buffer_from_hex
      (if (length (BigInt_toString16 v) mod 2 =? 0)%nat
       then BigInt_toString16 v else lit "0" ++ BigInt_toString16 v) = b :: rest
    /\ be_value (b :: rest) = v
    /\ Z_of_byte b <> 0.
Proof.
  intros Hv.
  destruct (BigInt_toString16_spec v ltac:(lia)) as (d & ds & -> & Hnum & Hd & Hpos).
  specialize (Hpos Hv).
  apply numeral_sound in Hnum as (Hparse & _ & _).
  change (parse_digits 16 (hex_letter d :: ds))
    with (digits_from 16 0 (hex_letter d :: ds)) in Hparse.
  pose proof (digit_value_hex_letter d Hd) as Hdv.
  set (padded := if (length (hex_letter d :: ds) mod 2 =? 0)%nat
                 then hex_letter d :: ds else lit "0" ++ hex_letter d :: ds).
  assert (Heven : (length padded mod 2 = 0)%nat).
  { subst padded. destruct (Nat.eqb_spec (length (hex_letter d :: ds) mod 2) 0) as [E|E];
      [exact E|].
    change (lit "0") with [48%N]. cbn [app length] in *.
    pose proof (Nat.mod_upper_bound (S (length ds)) 2 ltac:(lia)).
    replace (S (S (length ds))) with (S (length ds) + 1)%nat by lia.
    rewrite Nat.Div0.add_mod by lia.
    replace (S (length ds) mod 2)%nat with 1%nat by lia. reflexivity. }
  assert (Hval : digits_from 16 0 padded = Some v).
  { subst padded. destruct (_ =? _)%nat; [exact Hparse|].
    change (lit "0") with [48%N]. exact Hparse. }
  assert (Hhead : exists b rest, Buffer_from_hex padded = b :: rest /\ Z_of_byte b <> 0).
  { subst padded.
    destruct (Nat.eqb_spec (length (hex_letter d :: ds) mod 2) 0) as [E|E].
    - destruct ds as [|y r]; [discriminate E|].
      cbn [digits_from] in Hparse. rewrite Hdv in Hparse.
      cbn [Buffer_from_hex]. rewrite Hdv.
      destruct (digit_value 16 y) as [lo|] eqn:Hy; [|discriminate].
      apply digit_value_range in Hy as [Hlo _].
      eexists _, _. split; [reflexivity|].
      rewrite Z_of_byte_of_Z, Z.mod_small by lia. lia.
    - change (lit "0") with [48%N]. cbn [app Buffer_from_hex].
      replace (digit_value 16 48) with (Some 0) by reflexivity. rewrite Hdv.
      eexists _, _. split; [reflexivity|].
      rewrite Z_of_byte_of_Z, Z.mod_small by lia. lia. }
  destruct Hhead as (b & rest & Hbuf & Hb).
  exists b, rest. split; [exact Hbuf|]. split; [|exact Hb].
  rewrite <- Hbuf. unfold be_value. apply Buffer_from_hex_value; assumption.
Qed.

(** X16.  In [index.ts] a non-negative timelock [v] reaches HKDF as its
    shortest big-endian form: the salt decodes to [v], and it begins with a
    non-zero byte when [v > 0] and is the single byte zero when [v = 0]
    (where the library of [cli.ts] sends a fixed number of bytes). *)
Theorem Index_timelock_salt (initialKey : bytes_input) (v : Z) :
  0 <= v ->
  exists b rest k,
    Index.deriveKeyFromInitialKeyAndTimelock initialKey (IdBig v)
      = Invoke (Hkdf (Index.toBuffer initialKey) (b :: rest) Index.INFO 32) k
    /\ be_value (b :: rest) = v
    /\ (0 < v -> Z_of_byte b <> 0)
    /\ (v = 0 -> rest = []).
Proof.
  intros Hv. destruct (Z.eq_dec v 0) as [->|Hnz].
  - exists Byte.x00, []. eexists. split; [reflexivity|].
    split; [reflexivity|]. split; [lia|reflexivity].
  - destruct (timelock_hex_buffer v ltac:(lia)) as (b & rest & Hbuf & Hval & Hb).
    exists b, rest. eexists.
    split; [|split; [exact Hval|split; [intros _; exact Hb|lia]]].
    unfold Index.deriveKeyFromInitialKeyAndTimelock. cbn [pbind]. cbv zeta.
    match goal with
    | |- context [Buffer_from_hex ?x] =>
        match type of Hbuf with
        | Buffer_from_hex ?y = _ => change (Buffer_from_hex x) with (Buffer_from_hex y)
        end
    end.
    rewrite Hbuf. reflexivity.
Qed.

Lemma Index_timelock_salt_witness :
  exists b rest k,
    Index.deriveKeyFromInitialKeyAndTimelock sig_aa (IdBig 1000)
      = Invoke (Hkdf (Index.toBuffer sig_aa) (b :: rest) Index.INFO 32) k
    /\ be_value (b :: rest) = 1000
    /\ (0 < 1000 -> Z_of_byte b <> 0)
    /\ (1000 = 0 -> rest = []).
Proof.
  apply (Index_timelock_salt sig_aa 1000). lia.
Defined.

(** X17.  In [index.ts] every negative timelock reaches HKDF as the empty
    salt: its hex text begins with a minus sign, which [Buffer.from] does
    not decode, so all negative timelocks lead to one and the same HKDF
    call instead of an error. *)
Theorem Index_negative_timelock (initialKey : bytes_input) (v : Z) :
  v < 0 ->
  first_call (Index.deriveKeyFromInitialKeyAndTimelock initialKey (IdBig v))
    = Some (Hkdf (Index.toBuffer initialKey) [] Index.INFO 32)
  /\ first_call (Index.deriveKeyFromInitialKeyAndTimelock initialKey (IdNum (Integer v)))
     = Some (Hkdf (Index.toBuffer initialKey) [] Index.INFO 32).
Proof.
  intros Hv.
  unfold Index.deriveKeyFromInitialKeyAndTimelock.
  cbn [pbind BigInt_of_number first_call]. cbv zeta.
  match goal with
  | |- context [Buffer_from_hex ?x] => assert (Hsalt : Buffer_from_hex x = [])
  end.
  { unfold BigInt_toString16. destruct (Z.ltb_spec v 0); [|lia].
    change (lit "-") with [45%N]. change (lit "0") with [48%N].
    set (ds := hex_digits_fuel _ _ _).
    destruct (_ =? _)%nat; cbn [app Buffer_from_hex].
    - destruct ds; reflexivity.
    - reflexivity. }
  rewrite Hsalt. split; reflexivity.
Qed.

Lemma Index_negative_timelock_witness :
  first_call (Index.deriveKeyFromInitialKeyAndTimelock sig_aa (IdBig (-100)))
  = Some (Hkdf (Index.toBuffer sig_aa) [] Index.INFO 32).
Proof.
  apply (Index_negative_timelock sig_aa (-100)). lia.
Defined.

(** * The interactive shell *)

Lemma list_two_step_ind {A : Type} (P : list A -> Prop) :
  P [] -> (forall a, P [a]) ->
  (forall a b l, P l -> P (b :: l) -> P (a :: b :: l)) ->
  forall l, P l.
Proof.
  intros Hnil Hone Hstep.
  assert (H : forall l, P l /\ forall a, P (a :: l)).
  { induction l as [|b l [IH1 IH2]]; split; auto. }
  intros l. apply H.
Qed.

Lemma loop_cons2 (derive : jsstring -> jsstring -> result jsstring)
    (key a b : jsstring) (l : list jsstring) :
  Shell.loop derive key (a :: b :: l) =
    if bool_decide (trim a = lit "2") then
      ([Shell.Menu; Shell.Asked Shell.AskChoice; Shell.Done], Shell.Finished)
    else if bool_decide (trim a = lit "1") then
      (Shell.Menu :: Shell.Asked Shell.AskChoice :: Shell.Asked Shell.AskTimelock
         :: match derive key (trim b) with
            | Ok k => Shell.DerivedKey k
            | Err e => Shell.DeriveError e
            end :: fst (Shell.loop derive key l),
       snd (Shell.loop derive key l))
    else
      (Shell.Menu :: Shell.Asked Shell.AskChoice :: Shell.InvalidChoice
         :: fst (Shell.loop derive key (b :: l)),
       snd (Shell.loop derive key (b :: l))).
Proof.
  remember (b :: l) as rest eqn:Hrest. cbn [Shell.loop]. subst rest. cbv beta iota zeta.
  destruct (bool_decide (trim a = lit "2")); [reflexivity|].
  destruct (bool_decide (trim a = lit "1")).
  - destruct (Shell.loop derive key l). reflexivity.
  - destruct (Shell.loop derive key (b :: l)). reflexivity.
Qed.

Lemma loop_one (derive : jsstring -> jsstring -> result jsstring) (key a : jsstring) :
  Shell.loop derive key [a] =
    if bool_decide (trim a = lit "2") then
      ([Shell.Menu; Shell.Asked Shell.AskChoice; Shell.Done], Shell.Finished)
    else if bool_decide (trim a = lit "1") then
      ([Shell.Menu; Shell.Asked Shell.AskChoice; Shell.Asked Shell.AskTimelock],
       Shell.AwaitingInput)
    else
      ([Shell.Menu; Shell.Asked Shell.AskChoice; Shell.InvalidChoice;
        Shell.Menu; Shell.Asked Shell.AskChoice], Shell.AwaitingInput).
Proof. reflexivity. Qed.

Lemma loop_never_exits (derive : jsstring -> jsstring -> result jsstring)
    (key : jsstring) (inputs : list jsstring) (code : Z) :
  snd (Shell.loop derive key inputs) <> Shell.Exit code.
Proof.
  induction inputs as [|a|a b l IH1 IH2] using list_two_step_ind.
  - discriminate.
  - rewrite loop_one. repeat destruct (bool_decide _); discriminate.
  - rewrite loop_cons2. repeat destruct (bool_decide _); try discriminate; assumption.
Qed.

(** X18.  The shell calls [process.exit(1)] in exactly one situation: two
    answers were given and the initial derivation threw on them (trimmed);
    it has then written the error and nothing more.  Nothing that happens
    in the menu loop, a failing child derivation included, ends the run
    with an exit code. *)
Theorem shell_exit_code
    (create derive : jsstring -> jsstring -> result jsstring)
    (inputs : list jsstring) :
  (forall code, snd (Shell.main create derive inputs) = Shell.Exit code ->
     code = 1
     /\ exists a b rest e,
          inputs = a :: b :: rest /\ create (trim a) (trim b) = Err e
          /\ fst (Shell.main create derive inputs)
             = [Shell.Banner; Shell.Asked Shell.AskSignature;
                Shell.Asked Shell.AskChainId; Shell.Error e])
  /\ (forall a b rest e,
        inputs = a :: b :: rest -> create (trim a) (trim b) = Err e ->
        snd (Shell.main create derive inputs) = Shell.Exit 1)
  /\ (forall key rest code, snd (Shell.loop derive key rest) <> Shell.Exit code).
Proof.
  split; [|split].
  - intros code. destruct inputs as [|a [|b rest]]; cbn [Shell.main]; try discriminate.
    destruct (create (trim a) (trim b)) as [key|e] eqn:Hc.
    + pose proof (loop_never_exits derive key rest code) as Hn.
      destruct (Shell.loop derive key rest) as [outs en]. cbn [snd] in *. congruence.
    + cbn [fst snd]. intros [= <-]. split; [reflexivity|]. eauto 8.
  - intros a b rest e -> Hc. cbn [Shell.main]. rewrite Hc. reflexivity.
  - intros key rest code. apply loop_never_exits.
Qed.

Lemma loop_derived_keys (derive : jsstring -> jsstring -> result jsstring)
    (key : jsstring) (inputs : list jsstring) (o : Shell.output) :
  In o (fst (Shell.loop derive key inputs)) ->
  match o with
  | Shell.DerivedKey k => exists t, In t inputs /\ derive key (trim t) = Ok k
  | Shell.DeriveError e => exists t, In t inputs /\ derive key (trim t) = Err e
  | Shell.InitialKey _ | Shell.Banner | Shell.Error _ => False
  | _ => True
  end.
Proof.
  induction inputs as [|a|a b l IH1 IH2] using list_two_step_ind.
  - cbn. intros [<-|[<-|[]]]; exact I.
  - rewrite loop_one. repeat destruct (bool_decide _); cbn [fst In];
      intros H; repeat (destruct H as [<-|H]; [exact I|]); destruct H.
  - rewrite loop_cons2. repeat destruct (bool_decide _); cbn [fst In]; intros H.
    + repeat (destruct H as [<-|H]; [exact I|]). destruct H.
    + do 3 (destruct H as [<-|H]; [exact I|]). destruct H as [<-|H].
      * destruct (derive key (trim b)) eqn:Hd; exists b; split; auto; right; left; reflexivity.
      * specialize (IH1 H). destruct o; try exact IH1;
          destruct IH1 as (t & Ht & Hd); exists t; split; auto; right; right; exact Ht.
    + do 3 (destruct H as [<-|H]; [exact I|]).
      specialize (IH2 H). destruct o; try exact IH2;
        destruct IH2 as (t & Ht & Hd); exists t; split; auto; right; exact Ht.
Qed.

(** X19.  Within one run the initial key never changes: the shell writes
    at most one initial key, the one the initial derivation returned for
    the first two answers, and every derived key it writes is what the
    child derivation returned for that initial key and one of the later
    answers (trimmed). *)
Theorem shell_keys_provenance
    (create derive : jsstring -> jsstring -> result jsstring)
    (inputs : list jsstring) :
  (forall key, In (Shell.InitialKey key) (fst (Shell.main create derive inputs)) ->
     exists a b rest, inputs = a :: b :: rest /\ create (trim a) (trim b) = Ok key)
  /\ (forall k, In (Shell.DerivedKey k) (fst (Shell.main create derive inputs)) ->
        exists a b rest key t,
          inputs = a :: b :: rest /\ create (trim a) (trim b) = Ok key
          /\ In t rest /\ derive key (trim t) = Ok k).
Proof.
  destruct inputs as [|a [|b rest]]; cbn [Shell.main].
  - split; intros ? [H|[H|[]]]; discriminate H.
  - split; intros ? [H|[H|[H|[]]]]; discriminate H.
  - destruct (create (trim a) (trim b)) as [key|e] eqn:Hc.
    + pose proof (loop_derived_keys derive key rest) as Hl.
      destruct (Shell.loop derive key rest) as [outs en]. cbn [fst] in *. split.
      * intros key' H. do 3 (destruct H as [H|H]; [discriminate H|]).
        destruct H as [[= <-]|H]; [eauto|]. destruct (Hl _ H).
      * intros k H. do 4 (destruct H as [H|H]; [discriminate H|]).
        destruct (Hl _ H) as (t & Ht & Hd). eauto 10.
    + cbn [fst]. split; intros ? H;
        repeat (destruct H as [H|H]; [discriminate H|]); destruct H.
Qed.

Lemma deriveKey_run_Ok
    (hkdf : hkdf_call -> option (list byte)) (initialKey : bytes_input)
    (timelock : numeric_input) (opts : Cli.DerivationOptions) (s : jsstring) :
  run hkdf (Cli.deriveKeyFromInitialKeyAndTimelock initialKey timelock opts) = Ok s ->
  exists len out,
    Cli.nullish (Cli.outputLength opts) Cli.KEY_LENGTH = Integer len /\ 0 < len
    /\ Z.of_nat (length out) = len
    /\ s = Cli.bytesToHex0x out.
Proof.
  unfold Cli.deriveKeyFromInitialKeyAndTimelock.
  destruct (Cli.toBytes initialKey) as [keyBytes|]; cbn [pbind run]; [|discriminate].
  destruct (Cli.assertPositiveInt _ "outputLength") as [len|] eqn:Hlen;
    cbn [pbind run]; [|discriminate].
  apply assertPositiveInt_Ok in Hlen as [Hlen Hpos].
  destruct (Cli.assertPositiveInt _ "timelockWidth"); cbn [pbind run]; [|discriminate].
  destruct (Cli.assertExactLength keyBytes _ _); cbn [pbind run]; [|discriminate].
  destruct (Cli.encodeTimelock _ _) as [timelockBytes|]; cbn [pbind]; [|discriminate].
  intros (out & _ & Hl & ->)%run_hkdf_output.
  exists len, out. repeat split; assumption.
Qed.

Lemma length_bytesToHex0x (out : list byte) :
  length (Cli.bytesToHex0x out) = (2 + 2 * length out)%nat.
Proof.
  unfold Cli.bytesToHex0x. rewrite length_app, length_encode. reflexivity.
Qed.

(** X20.  Run on the library of [cli.ts], over any HKDF implementation,
    every key the shell writes, initial or derived, is a string of 66
    characters: the shell passes no options, so each one is ["0x"] and the
    hex text of 32 bytes. *)
Theorem shell_keys_have_66_characters
    (hkdf : hkdf_call -> option (list byte)) (inputs : list jsstring) (key : jsstring) :
  In (Shell.InitialKey key)
     (fst (Shell.main (Shell.create_with hkdf) (Shell.derive_with hkdf) inputs))
  \/ In (Shell.DerivedKey key)
       (fst (Shell.main (Shell.create_with hkdf) (Shell.derive_with hkdf) inputs)) ->
  length key = 66%nat.
Proof.
  assert (Hc : forall a b k, Shell.create_with hkdf a b = Ok k -> length k = 66%nat).
  { intros a b k (len & c & out & Hlen & _ & _ & _ & Hl & ->)%createInitialKey_run_Ok.
    cbn in Hlen. injection Hlen as <-. rewrite length_bytesToHex0x. lia. }
  assert (Hd : forall a b k, Shell.derive_with hkdf a b = Ok k -> length k = 66%nat).
  { intros a b k (len & out & Hlen & _ & Hl & ->)%deriveKey_run_Ok.
    cbn in Hlen. injection Hlen as <-. rewrite length_bytesToHex0x. lia. }
  destruct inputs as [|a [|b rest]]; cbn [Shell.main].
  - intros [[H|[H|[]]]|[H|[H|[]]]]; discriminate H.
  - intros [[H|[H|[H|[]]]]|[H|[H|[H|[]]]]]; discriminate H.
  - destruct (Shell.create_with hkdf (trim a) (trim b)) as [k0|e] eqn:Hk.
    + pose proof (loop_derived_keys (Shell.derive_with hkdf) k0 rest) as Hl.
      destruct (Shell.loop (Shell.derive_with hkdf) k0 rest) as [outs en]. cbn [fst] in *.
      intros [H|H].
      * do 3 (destruct H as [H|H]; [discriminate H|]).
        destruct H as [[= <-]|H]; [eapply Hc, Hk|]. destruct (Hl _ H).
      * do 4 (destruct H as [H|H]; [discriminate H|]).
        destruct (Hl _ H) as (t & _ & Ht). eapply Hd, Ht.
    + cbn [fst]. intros [H|H];
        repeat (destruct H as [H|H]; [discriminate H|]); destruct H.
Qed.

Lemma shell_keys_have_66_characters_witness :
  length (lit "0x" ++ Scure.encode (replicate 31 Byte.x00 ++ [byte_of_Z 1])) = 66%nat.
Proof.
  apply (shell_keys_have_66_characters
           (fun c => Some (replicate 31 Byte.x00 ++ [byte_of_Z 1]))
           [lit "0x" ++ concat (replicate 32 (lit "aa")); lit " 1 "; lit "2"]).
  left. vm_compute. tauto.
Defined.

(** * The two versions side by side *)

Lemma be_value_range (bs : list byte) : 0 <= be_value bs < 256 ^ Z.of_nat (length bs).
Proof.
  induction bs as [|b bs IH] using rev_ind; [cbn; lia|].
  rewrite be_value_snoc, length_app, Nat2Z.inj_add, Z.pow_add_r by lia.
  cbn [length]. change (256 ^ Z.of_nat 1) with 256.
  pose proof (Z_of_byte_range b). nia.
Qed.

Lemma be_bytes_be_value (bs : list byte) : be_bytes (length bs) (be_value bs) = bs.
Proof.
  induction bs as [|b bs IH] using rev_ind; [reflexivity|].
  rewrite be_value_snoc, length_app. cbn [length]. rewrite Nat.add_1_r. cbn [be_bytes].
  pose proof (Z_of_byte_range b).
  replace ((be_value bs * 256 + Z_of_byte b) / 256) with (be_value bs)
    by (apply Z.div_unique with (Z_of_byte b); lia).
  rewrite IH. f_equal. f_equal.
  rewrite <- byte_of_Z_mod.
  replace ((be_value bs * 256 + Z_of_byte b) mod 256) with (Z_of_byte b)
    by (apply Z.mod_unique with (be_value bs); lia).
  apply byte_of_Z_of_byte.
Qed.

Lemma be_value_cons (b : byte) (rest : list byte) :
  be_value (b :: rest) = Z_of_byte b * 256 ^ Z.of_nat (length rest) + be_value rest.
Proof.
  induction rest as [|c rest IH] using rev_ind.
  - cbn. lia.
  - change (b :: rest ++ [c]) with ((b :: rest) ++ [c]).
    rewrite !be_value_snoc, IH, length_app, Nat2Z.inj_add, Z.pow_add_r by lia.
    cbn [length]. change (256 ^ Z.of_nat 1) with 256. lia.
Qed.

(** X21.  For a non-negative timelock the two versions differ only by
    padding: whenever the library of [cli.ts] encodes [v] at a positive
    width [w], its salt is the salt that [index.ts] sends for [v], behind as
    many zero bytes as are needed to reach [w] bytes. *)
Theorem timelock_salts_differ_by_padding
    (initialKey : bytes_input) (v w : Z) (salt : list byte) (c : hkdf_call) :
  0 <= v -> 0 < w ->
  Cli.encodeTimelock (IdBig v) (Some (Integer w)) = Ok salt ->
  first_call (Index.deriveKeyFromInitialKeyAndTimelock initialKey (IdBig v)) = Some c ->
  (length (hkdf_salt c) <= length salt)%nat
  /\ salt = replicate (length salt - length (hkdf_salt c)) Byte.x00 ++ hkdf_salt c.
Proof.
  intros Hv Hw Henc Hc.
  apply (encodeTimelock_Ok_iff (IdBig v) v w salt Hw) in Henc as [Hr ->];
    [|left; reflexivity].
  assert (Hsalt : exists b rest,
            hkdf_salt c = b :: rest /\ be_value (b :: rest) = v
            /\ (0 < v -> Z_of_byte b <> 0) /\ (v = 0 -> rest = [])).
  { revert Hc. destruct (Z.eq_dec v 0) as [->|Hne].
    - intros [= <-]. exists Byte.x00, []. repeat split; lia || reflexivity.
    - destruct (timelock_hex_buffer v ltac:(lia)) as (b & rest & Hbuf & Hval & Hb).
      unfold Index.deriveKeyFromInitialKeyAndTimelock. cbn [pbind first_call]. cbv zeta.
      match goal with
      | |- context [Buffer_from_hex ?x] =>
          match type of Hbuf with
          | Buffer_from_hex ?y = _ => change (Buffer_from_hex x) with (Buffer_from_hex y)
          end
      end.
      rewrite Hbuf. intros [= <-]. exists b, rest. cbn [hkdf_salt].
      repeat split; auto; lia. }
  destruct Hsalt as (b & rest & -> & Hval & Hnz & Hz).
  rewrite length_be_bytes.
  assert (Hlen : (length (b :: rest) <= Z.to_nat w)%nat).
  { destruct (Z.eq_dec v 0) as [->|Hne].
    - rewrite (Hz eq_refl). cbn [length]. lia.
    - specialize (Hnz ltac:(lia)). rewrite be_value_cons in Hval.
      pose proof (Z_of_byte_range b). pose proof (be_value_range rest) as Hrest.
      assert (Hlow : 256 ^ Z.of_nat (length rest) <= v) by nia.
      destruct (Nat.le_gt_cases (length (b :: rest)) (Z.to_nat w)) as [Hle|Hgt];
        [exact Hle|exfalso].
      assert (256 ^ w <= 256 ^ Z.of_nat (length rest))
        by (apply Z.pow_le_mono_r; cbn [length] in Hgt; lia).
      rewrite <- pow256 in Hr by lia. lia. }
  split; [exact Hlen|].
  replace (Z.to_nat w) with ((Z.to_nat w - length (b :: rest)) + length (b :: rest))%nat
    at 1 by lia.
  rewrite be_bytes_widen by (rewrite <- Hval; apply be_value_range).
  f_equal. rewrite <- Hval. apply be_bytes_be_value.
Qed.

Lemma timelock_salts_differ_by_padding_witness :
  let cli_salt := map byte_of_Z [0; 0; 0; 0; 0; 0; 3; 232] in
  let index_salt := [byte_of_Z 3; byte_of_Z 232] in
  (length index_salt <= length cli_salt)%nat
  /\ cli_salt = replicate (length cli_salt - length index_salt) Byte.x00 ++ index_salt.
Proof.
  apply (timelock_salts_differ_by_padding sig_aa 1000 8
           (map byte_of_Z [0; 0; 0; 0; 0; 0; 3; 232])
           (Hkdf (Index.toBuffer sig_aa) [byte_of_Z 3; byte_of_Z 232] Index.INFO 32));
    first [lia | (vm_compute; reflexivity)].
Defined.
